(** * Shallow embedding of the Group23 Hex agents (MCTSAgent.py, mcts.py,
      AlphaZeroAgent.py) and the properties of their search tree, search
      loop, rollout policy and time budgeter. *)

From Stdlib Require Import ZArith QArith Qpower Qreduction List Bool Lia.
From stdpp Require Import base option list gmap.

Open Scope Z_scope.

(** ** Python results

    A Python call either returns, raises, or does not terminate.  Loops whose
    termination depends on the data are given fuel; [Diverge] is the answer of
    a loop whose fuel ran out. *)

Inductive exn : Type :=
| ValueError          (* max() of an empty sequence, "No legal moves available" *)
| ZeroDivisionError   (* int / 0 *)
| IndexError          (* list index out of range, random.choice([]) *)
| AttributeError      (* None.x *)
| DanglingRef.        (* a reference outside the heap: no Python counterpart *)

Inductive py (A : Type) : Type :=
| Ok (a : A)
| Raise (e : exn)
| Diverge.

Arguments Ok {A} a.
Arguments Raise {A} e.
Arguments Diverge {A}.

Definition rbind {A B} (r : py A) (k : A -> py B) : py B :=
  match r with
  | Ok a => k a
  | Raise e => Raise e
  | Diverge => Diverge
  end.

Notation "'let!' x ':=' r 'in' k" := (rbind r (fun x => k))
  (at level 10, x pattern, r at level 100, k at level 200).

(** ** Primitives of the game framework

    [src.Colour], [src.Move], [src.Tile] and [src.Board] are imported by the
    agents; only the attributes the agents read are modelled. *)

(** Modelled from the spec: src/Colour.py is not part of the sources; the
    spec gives two values and a total, involutive [opposite]. *)
Inductive Colour : Type := RED | BLUE.

Definition opposite (c : Colour) : Colour :=
  match c with RED => BLUE | BLUE => RED end.

#[global] Instance Colour_eq_dec : EqDecision Colour.
Proof. solve_decision. Defined.

(** Modelled from the spec: src/Move.py is not part of the sources; a move is
    a pair of coordinates, equal when the coordinates are. *)
Record Move : Type := mkMove { move_x : Z; move_y : Z }.

#[global] Instance Move_eq_dec : EqDecision Move.
Proof. solve_decision. Defined.

(** Modelled from the spec: src/Tile.py is not part of the sources; a tile
    carries its coordinates and an optional owner ([None] = empty). *)
Record Tile : Type := mkTile { tile_x : Z; tile_y : Z; tile_colour : option Colour }.

(** Modelled from the spec: src/Board.py is not part of the sources; the
    agents read [board.size] and [board.tiles[x][y]]. *)
Record Board : Type := mkBoard { board_size : Z; board_tiles : list (list Tile) }.

(** Python's [seq[i]] on a list: negative indices count from the end, anything
    else out of range raises IndexError. *)
Definition py_getitem {A} (l : list A) (i : Z) : py A :=
  let n := Z.of_nat (length l) in
  let j := if i <? 0 then i + n else i in
  if (0 <=? j) && (j <? n) then
    match l !! Z.to_nat j with
    | Some a => Ok a
    | None => Raise IndexError
    end
  else Raise IndexError.

(** ** The search tree (class TreeNode of MCTSAgent.py)

    Nodes are Python objects that refer to each other (parent and children),
    so the tree lives in a heap of nodes addressed by identity. *)

Record TreeNode : Type := mkNode {
  move : option Move;      (* the move that led to this node; None at a root *)
  parent : option nat;     (* parent node *)
  children : list nat;     (* list of child nodes *)
  visits : Z;
  wins : Z
}.

Abbreviation Heap := (gmap nat TreeNode).

(** [TreeNode(move, parent)] : a new object, not yet in the heap. *)
Definition TreeNode_init (mv : option Move) (p : option nat) : TreeNode :=
  mkNode mv p [] 0 0.

(** Allocation of a new object: an identity no live object has. *)
Definition alloc (h : Heap) (nd : TreeNode) : nat * Heap :=
  let i := fresh (dom h) in (i, <[i := nd]> h).

Definition deref (h : Heap) (i : nat) : py TreeNode :=
  match h !! i with
  | Some nd => Ok nd
  | None => Raise DanglingRef
  end.

(** [TreeNode.is_fully_expanded(self, legal_moves)] *)
Definition is_fully_expanded (self : TreeNode) (legal_moves : list Move) : bool :=
  Nat.eqb (length (children self)) (length legal_moves).

(** [TreeNode.add_child(self, move)] *)
Definition add_child (h : Heap) (self : nat) (mv : Move) : py (nat * Heap) :=
  let! nd := deref h self in
  let '(child_node, h1) := alloc h (TreeNode_init (Some mv) (Some self)) in
  Ok (child_node,
      <[self := mkNode (move nd) (parent nd) (children nd ++ [child_node])
                       (visits nd) (wins nd)]> h1).

(** The moves carried by a list of nodes, in order. *)
Definition moves_of (h : Heap) (cs : list nat) : list (option Move) :=
  map (fun c => h !! c ≫= move) cs.

(** [MCTSAgent.update_tree(self, tree, move)]: the loop over [tree.children] *)
Fixpoint find_child (h : Heap) (cs : list nat) (mv : Move) : py (option nat) :=
  match cs with
  | [] => Ok None
  | child :: cs' =>
      let! nd := deref h child in
      if decide (move nd = Some mv) then Ok (Some child) else find_child h cs' mv
  end.

Definition update_tree (h : Heap) (tree : nat) (mv : Move) : py (nat * Heap) :=
  let! nd := deref h tree in
  let! found := find_child h (children nd) mv in
  match found with
  | Some child => Ok (child, h)
  | None => Ok (alloc h (TreeNode_init (Some mv) (Some tree)))
  end.

(** Every reference in a list points into the heap. *)
Definition closed_refs (h : Heap) (cs : list nat) : Prop :=
  Forall (fun c => is_Some (h !! c)) cs.


(** A node after [node.visits += 1; node.wins += r]. *)
Definition bumped (nd : TreeNode) (r : Z) : TreeNode :=
  mkNode (move nd) (parent nd) (children nd) (visits nd + 1) (wins nd + r).

(** [MCTS._backpropagate(self, node, result)]; the same text in MCTSAgent.py
    and in mcts.py.  The loop follows [parent] links, one unit of fuel per
    node. *)
Fixpoint _backpropagate (fuel : nat) (h : Heap) (node : option nat) (result : Z)
  : py Heap :=
  match node with
  | None => Ok h
  | Some n =>
      match fuel with
      | O => Diverge
      | S fuel' =>
          let! nd := deref h n in
          _backpropagate fuel' (<[n := bumped nd result]> h) (parent nd) (1 - result)
      end
  end.

(** The nodes a backpropagation pass from [n] walks through: [n], its parent,
    ..., up to a node without parent. *)
Inductive parent_chain (h : Heap) : nat -> list nat -> Prop :=
| chain_root n nd :
    h !! n = Some nd -> parent nd = None -> parent_chain h n [n]
| chain_step n nd p l :
    h !! n = Some nd -> parent nd = Some p -> parent_chain h p l ->
    parent_chain h n (n :: l).

(** The value added to the win accumulator [d] levels above the start. *)
Fixpoint result_at (result : Z) (d : nat) : Z :=
  match d with
  | O => result
  | S d' => result_at (1 - result) d'
  end.

(** "Every candidate move already has a matching child". *)
Definition every_move_has_child (h : Heap) (self : TreeNode) (legal_moves : list Move)
  : Prop :=
  forall m, In m legal_moves -> In (Some m) (moves_of h (children self)).

(** "No two sibling nodes share the same move". *)
Definition distinct_sibling_moves (h : Heap) (self : TreeNode) : Prop :=
  List.NoDup (moves_of h (children self)).

(** ** The board as the agents read it (class Utilities of MCTSAgent.py) *)

Definition RELATIVE_NEIGHBOURS : list (Z * Z) :=
  [(-1, -1); (-1, 0);   (* row above *)
   (0, -1); (0, 1);     (* same row *)
   (1, 0); (1, 1)].     (* row below *)

(** [Utilities.is_within_bounds(board, x, y)] *)
Definition is_within_bounds (board : Board) (x y : Z) : bool :=
  (0 <=? x) && (x <? board_size board) && ((0 <=? y) && (y <? board_size board)).

(** [board.tiles[x][y]] *)
Definition tile_at (board : Board) (x y : Z) : py Tile :=
  let! row := py_getitem (board_tiles board) x in
  py_getitem row y.

(** [Utilities.get_neighbours(board, x, y)]: the loop over the offsets. *)
Fixpoint neighbours_at (board : Board) (x y : Z) (offsets : list (Z * Z))
  : py (list Tile) :=
  match offsets with
  | [] => Ok []
  | (x_offset, y_offset) :: rest =>
      let x_n := x + x_offset in
      let y_n := y + y_offset in
      if is_within_bounds board x_n y_n then
        let! t := tile_at board x_n y_n in
        let! ts := neighbours_at board x y rest in
        Ok (t :: ts)
      else neighbours_at board x y rest
  end.

Definition get_neighbours (board : Board) (x y : Z) : py (list Tile) :=
  neighbours_at board x y RELATIVE_NEIGHBOURS.

(** ** Rollout policy (class MCTS of MCTSAgent.py) *)

(** [tile.colour != Colour.RED and tile.colour != Colour.BLUE] *)
Definition is_available (t : Tile) : bool :=
  match tile_colour t with
  | None => true
  | Some _ => false
  end.

(** [MCTS._get_legal_moves(self, board)] *)
Definition _get_legal_moves (board : Board) : py (list Move) :=
  let available_tiles := List.filter is_available (concat (board_tiles board)) in
  if Nat.eqb (length available_tiles) 0 then Raise ValueError
  else Ok (map (fun t => mkMove (tile_x t) (tile_y t)) available_tiles).

(** [itertools.combinations(l, 2)] *)
Fixpoint combinations2 {A} (l : list A) : list (A * A) :=
  match l with
  | [] => []
  | a :: l' => map (pair a) l' ++ combinations2 l'
  end.

(** [n.colour == colour] *)
Definition has_colour (n : Tile) (colour : Colour) : bool :=
  bool_decide (tile_colour n = Some colour).

(** [MCTS.is_bridge(self, n1, n2, move)] *)
Definition is_bridge (n1 n2 : Tile) (mv : Move) : bool :=
  (Z.abs (tile_x n1 - tile_x n2) =? 2) && (Z.abs (tile_y n1 - tile_y n2) =? 2) &&
  ((move_x mv =? (tile_x n1 + tile_x n2) / 2) &&
   (move_y mv =? (tile_y n1 + tile_y n2) / 2)).

(** [MCTS.completes_wheel(self, board, x, y, colour)] *)
Definition completes_wheel (board : Board) (x y : Z) (colour : Colour) : py bool :=
  let! neighbors := get_neighbours board x y in
  let same_coloured_neighbors :=
    List.filter (fun neighbour => has_colour neighbour colour) neighbors in
  Ok (3 <=? Z.of_nat (length same_coloured_neighbors)).

(** First loop of [savebridge]: a move is appended once for every pair of
    neighbours that forms a bridge with it. *)
Fixpoint bridge_moves (board : Board) (colour : Colour) (legal_moves : list Move)
  : py (list Move) :=
  match legal_moves with
  | [] => Ok []
  | mv :: rest =>
      let! neighbors := get_neighbours board (move_x mv) (move_y mv) in
      let hits :=
        List.filter (fun '(n1, n2) =>
                       has_colour n1 colour && has_colour n2 colour && is_bridge n1 n2 mv)
                    (combinations2 neighbors) in
      let! more := bridge_moves board colour rest in
      Ok (map (fun _ => mv) hits ++ more)
  end.

(** Second loop of [savebridge]. *)
Fixpoint wheel_moves (board : Board) (colour : Colour) (legal_moves : list Move)
  : py (list Move) :=
  match legal_moves with
  | [] => Ok []
  | mv :: rest =>
      let! w := completes_wheel board (move_x mv) (move_y mv) colour in
      let! more := wheel_moves board colour rest in
      Ok (if w then mv :: more else more)
  end.

(** [MCTS.savebridge(self, board, colour, legal_moves)] *)
Definition savebridge (board : Board) (colour : Colour) (legal_moves : list Move)
  : py (list Move) :=
  let! bridges := bridge_moves board colour legal_moves in
  let! wheels := wheel_moves board colour legal_moves in
  Ok (bridges ++ wheels).

(** [random.choice(seq)], given the number [r] the generator draws: the
    element at index [r mod len(seq)]; IndexError on an empty sequence. *)
Definition random_choice {A} (r : nat) (l : list A) : py A :=
  match l !! (r mod length l)%nat with
  | Some a => Ok a
  | None => Raise IndexError
  end.

(** [MCTS._default_policy(self, board, colour, legal_moves)] *)
Definition _default_policy (r : nat) (board : Board) (colour : Colour)
  (legal_moves : list Move) : py Move :=
  let! savebridge_moves := savebridge board colour legal_moves in
  if (0 <? length savebridge_moves)%nat then random_choice r savebridge_moves
  else random_choice r legal_moves.

(** A board is well formed when [tiles] is a [size] x [size] grid. *)
Definition well_formed_board (board : Board) : Prop :=
  Z.of_nat (length (board_tiles board)) = board_size board /\
  Forall (fun row => Z.of_nat (length row) = board_size board) (board_tiles board).

(** The empty board of a given size: tile (x, y) at [tiles[x][y]]. *)
Definition empty_board (n : nat) : Board :=
  mkBoard (Z.of_nat n)
    (map (fun x => map (fun y => mkTile (Z.of_nat x) (Z.of_nat y) None) (seq 0 n))
         (seq 0 n)).

(** ** The search engine (class MCTS of MCTSAgent.py) *)

(** What the engine takes from outside.  The methods of the Board
    collaborator (src/Board.py is not part of the sources) and the
    floating-point score of [best_child] are parameters; so are the readings
    of the wall clock and the numbers drawn by the random generator, indexed
    by the number of earlier calls. *)
Class Externals : Type := {
  (* board.set_tile_colour(x, y, colour): the board afterwards *)
  set_tile_colour : Board -> Z -> Z -> Colour -> py Board;
  (* board.has_ended(colour) *)
  has_ended : Board -> Colour -> bool;
  (* board.get_winner() *)
  get_winner : Board -> option Colour;
  (* (child.wins / child.visits)
       + exploration_param * math.sqrt(math.log(self.visits) / child.visits),
     from child.wins, child.visits and self.visits; a float is a rational *)
  uct_score : Z -> Z -> Z -> py Q;
  (* time.time() *)
  time_time : nat -> Q;
  (* the number behind random.choice *)
  randbelow : nat -> nat
}.

(** The state a search threads through its calls: the heap of tree nodes, and
    how often the clock has been read and the generator used. *)
Record World : Type := mkWorld { heap : Heap; ticks : nat; draws : nat }.

Definition M (A : Type) : Type := World -> py (A * World).

Definition mret {A} (a : A) : M A := fun w => Ok (a, w).

Definition mbind {A B} (m : M A) (k : A -> M B) : M B :=
  fun w => match m w with
           | Ok (a, w') => k a w'
           | Raise e => Raise e
           | Diverge => Diverge
           end.

Notation "'let*' x ':=' m 'in' k" := (mbind m (fun x => k))
  (at level 10, x pattern, m at level 100, k at level 200).

(** A computation that only reads the heap. *)
Definition reading {A} (f : Heap -> py A) : M A :=
  fun w => match f (heap w) with
           | Ok a => Ok (a, w)
           | Raise e => Raise e
           | Diverge => Diverge
           end.

(** A computation that updates the heap. *)
Definition updating {A} (f : Heap -> py (A * Heap)) : M A :=
  fun w => match f (heap w) with
           | Ok (a, h') => Ok (a, mkWorld h' (ticks w) (draws w))
           | Raise e => Raise e
           | Diverge => Diverge
           end.

Definition lift {A} (r : py A) : M A := reading (fun _ => r).

Definition diverge {A} : M A := fun _ => Diverge.

(** [x > y] on rationals. *)
Definition Qgtb (x y : Q) : bool := negb (Qle_bool x y).

(** [x < y] on rationals. *)
Definition Qltb (x y : Q) : bool := negb (Qle_bool y x).

(** Python's [max(l, key=key)]: the first element whose key is maximal;
    ValueError on an empty list. *)
Section PyMax.

Context {A K : Type} (gt : K -> K -> bool) (key : A -> py K).

Fixpoint py_max_from (best : A) (kbest : K) (l : list A) : py A :=
  match l with
  | [] => Ok best
  | x :: l' =>
      let! kx := key x in
      if gt kx kbest then py_max_from x kx l' else py_max_from best kbest l'
  end.

Definition py_max (l : list A) : py A :=
  match l with
  | [] => Raise ValueError
  | x :: l' => let! kx := key x in py_max_from x kx l'
  end.

End PyMax.

(** [[child.move for child in children]] *)
Fixpoint child_moves (h : Heap) (cs : list nat) : py (list (option Move)) :=
  match cs with
  | [] => Ok []
  | child :: cs' =>
      let! cn := deref h child in
      let! ms := child_moves h cs' in
      Ok (move cn :: ms)
  end.

(** [node.move.x, node.move.y]: AttributeError when [node.move] is None. *)
Definition move_of (nd : TreeNode) : py Move :=
  match move nd with
  | Some m => Ok m
  | None => Raise AttributeError
  end.

(** [child.visits] as the key of [max]. *)
Definition visits_key (h : Heap) (child : nat) : py Z :=
  let! cn := deref h child in Ok (visits cn).

Section Engine.

Context `{Externals}.

(** [time.time()] *)
Definition now : M Q :=
  fun w => Ok (time_time (ticks w), mkWorld (heap w) (S (ticks w)) (draws w)).

(** The next number of the random generator. *)
Definition draw : M nat :=
  fun w => Ok (randbelow (draws w), mkWorld (heap w) (ticks w) (S (draws w))).

(** [TreeNode.best_child(self)] with the default exploration parameter. *)
Definition best_child (h : Heap) (self : nat) : py nat :=
  let! nd := deref h self in
  py_max Qgtb
    (fun child => let! cn := deref h child in
                  uct_score (wins cn) (visits cn) (visits nd))
    (children nd).

(** The loop of [MCTS._select]. *)
Fixpoint select_loop (gas : nat) (h : Heap) (legal_moves : list Move) (node : nat)
  : py nat :=
  let! nd := deref h node in
  if is_fully_expanded nd legal_moves then
    match gas with
    | O => Diverge
    | S gas' =>
        let! node' := best_child h node in
        select_loop gas' h legal_moves node'
    end
  else Ok node.

(** [MCTS._expand(self, node)] *)
Definition _expand (board : Board) (node : nat) : M nat :=
  let* legal_moves := lift (_get_legal_moves board) in
  let* nd := reading (fun h => deref h node) in
  let* taken := reading (fun h => child_moves h (children nd)) in
  let unvisited_moves :=
    List.filter (fun m => negb (bool_decide (Some m ∈ taken))) legal_moves in
  if (0 <? length unvisited_moves)%nat then
    let* r := draw in
    let* new_move := lift (random_choice r unvisited_moves) in
    updating (fun h => add_child h node new_move)
  else mret node.

(** [MCTS._select(self, node)] *)
Definition _select (gas : nat) (board : Board) (node : nat) : M nat :=
  let* legal_moves := lift (_get_legal_moves board) in
  let* node' := reading (fun h => select_loop gas h legal_moves node) in
  _expand board node'.

(** The loop of [MCTS._simulate]. *)
Fixpoint rollout (gas : nat) (simulation_board : Board) (current_colour : Colour)
  : M Board :=
  if negb (has_ended simulation_board current_colour) &&
     negb (has_ended simulation_board (opposite current_colour)) then
    match gas with
    | O => diverge
    | S gas' =>
        let* legal_moves := lift (_get_legal_moves simulation_board) in
        let* r := draw in
        let* mv := lift (_default_policy r simulation_board current_colour legal_moves) in
        let* simulation_board' :=
          lift (set_tile_colour simulation_board (move_x mv) (move_y mv) current_colour) in
        rollout gas' simulation_board' (opposite current_colour)
    end
  else mret simulation_board.

(** [MCTS._simulate(self, node)]; the copy of [self.board] is the value
    [board] itself, which the rollout cannot change. *)
Definition _simulate (gas : nat) (colour : Colour) (board : Board) (node : nat) : M Z :=
  let* nd := reading (fun h => deref h node) in
  let* mv := lift (move_of nd) in
  let* simulation_board := lift (set_tile_colour board (move_x mv) (move_y mv) colour) in
  let* final_board := rollout gas simulation_board (opposite colour) in
  mret (if bool_decide (get_winner final_board = Some colour) then 1 else 0).

(** One pass of the body of the loop of [MCTS.run]. *)
Definition iteration (gas : nat) (colour : Colour) (board : Board) (root : nat) : M unit :=
  let* node := _select gas board root in
  let* result := _simulate gas colour board node in
  updating (fun h => let! h' := _backpropagate gas h (Some node) result in Ok (tt, h')).

(** The loop of [MCTS.run]; returns [iterations]. *)
Fixpoint run_loop (fuel gas : nat) (colour : Colour) (board : Board) (turn_length : Q)
  (root : nat) (start_time : Q) (iterations : nat) : M nat :=
  let* t := now in
  if Qltb (t - start_time) turn_length then
    match fuel with
    | O => diverge
    | S fuel' =>
        let* _ := iteration gas colour board root in
        run_loop fuel' gas colour board turn_length root start_time (S iterations)
    end
  else mret iterations.

(** [max(root.children, key=lambda child: child.visits)] *)
Definition most_visited_child (h : Heap) (root : nat) : py nat :=
  let! nd := deref h root in
  py_max Z.gtb (visits_key h) (children nd).

(** [MCTS.run(self, root)] of MCTSAgent.py *)
Definition run (fuel gas : nat) (colour : Colour) (board : Board) (turn_length : Q)
  (root : nat) : M nat :=
  let* start_time := now in
  let* iterations := run_loop fuel gas colour board turn_length root start_time 0 in
  reading (fun h => most_visited_child h root).

(** [MCTSAgent.make_move(self, turn, board, opp_move)]: from the agent's
    colour, turn length and retained tree, to the returned move, the board
    as the call leaves it and the tree the agent retains. *)
Definition make_move (fuel gas : nat) (colour : Colour) (turn_length : Q)
  (tree : option nat) (turn : Z) (board : Board) (opp_move : option Move)
  : M (Move * Board * nat) :=
  let* tree1 :=
    match tree with
    | None => updating (fun h => Ok (alloc h (TreeNode_init None None)))
    | Some t => mret t
    end in
  let* (tree2, board1) :=
    match opp_move with
    | Some om =>
        let* t := updating (fun h => update_tree h tree1 om) in
        let* b := lift (set_tile_colour board (move_x om) (move_y om) (opposite colour)) in
        mret (t, b)
    | None => mret (tree1, board)
    end in
  let* tree3 := run fuel gas colour board1 turn_length tree2 in
  let* nd := reading (fun h => deref h tree3) in
  let* moves := reading (fun h => child_moves h (children nd)) in
  let* mv := lift (move_of nd) in
  let* board2 := lift (set_tile_colour board1 (move_x mv) (move_y mv) colour) in
  mret (mv, board2, tree3).

End Engine.

(** ** The learning variant of the engine (class MCTS of mcts.py) *)

Module AlphaZero.

(** Modelled from the spec: agents/Group23/treenode.py, the node class of
    mcts.py, is not part of the sources.  The spec gives a tree node its
    move, parent, children, visit count and win count; these are the fields
    of [TreeNode], and the only ones the code below reads. *)
Definition Node : Type := TreeNode.

(** [a / b] on Python ints: true division, ZeroDivisionError when [b] is 0.
    The quotient is kept exact. *)
Definition py_truediv (a b : Z) : py Q :=
  if b =? 0 then Raise ZeroDivisionError else Ok (inject_Z a / inject_Z b)%Q.

(** [l[i] = a] *)
Definition py_setitem {A} (l : list A) (i : Z) (a : A) : py (list A) :=
  let n := Z.of_nat (length l) in
  let j := if i <? 0 then i + n else i in
  if (0 <=? j) && (j <? n) then Ok (<[Z.to_nat j := a]> l) else Raise IndexError.

(** [[f(x) for x in l]] for an [f] that can raise. *)
Fixpoint py_map {A B} (f : A -> py B) (l : list A) : py (list B) :=
  match l with
  | [] => Ok []
  | a :: l' =>
      let! b := f a in
      let! bs := py_map f l' in
      Ok (b :: bs)
  end.

(** [distribution_board[x][y] += v] *)
Definition add_at (distribution_board : list (list Z)) (x y v : Z)
  : py (list (list Z)) :=
  let! row := py_getitem distribution_board x in
  let! old := py_getitem row y in
  let! row' := py_setitem row y (old + v) in
  py_setitem distribution_board x row'.

(** [MCTS._count_visits_DFS(self, node, distribution_board)]; one unit of gas
    per level of the tree. *)
Fixpoint _count_visits_DFS (gas : nat) (h : Heap) (node : nat)
  (distribution_board : list (list Z)) : py (list (list Z)) :=
  match gas with
  | O => Diverge
  | S gas' =>
      let! nd := deref h node in
      (fix each_child (cs : list nat) (db : list (list Z)) : py (list (list Z)) :=
         match cs with
         | [] => Ok db
         | child :: cs' =>
             let! cn := deref h child in
             let! mv := move_of cn in
             let! db1 := add_at db (move_x mv) (move_y mv) (visits cn) in
             let! db2 := _count_visits_DFS gas' h child db1 in
             each_child cs' db2
         end) (children nd) distribution_board
  end.

Definition sum_Z (l : list Z) : Z := fold_left Z.add l 0.

(** [MCTS._get_visit_count_distribution(self, node)] *)
Definition _get_visit_count_distribution (gas : nat) (h : Heap) (node : nat)
  : py (list (list Q)) :=
  let distribution_board := repeat (repeat 0 11%nat) 11%nat in
  let! counted := _count_visits_DFS gas h node distribution_board in
  let total_visits := sum_Z (map sum_Z counted) in
  py_map (py_map (fun v => py_truediv v total_visits)) counted.

(** [child.wins / child.visits] *)
Definition win_rate (child : Node) : py Q := py_truediv (wins child) (visits child).

(** The key of [max] in [run]: the win rate of the node behind a reference. *)
Definition win_rate_key (h : Heap) (child : nat) : py Q :=
  let! cn := deref h child in win_rate cn.

(** [MCTS.run(self, board)] of mcts.py from the end of its loop on: the choice
    of [best_child], the moves printed, and the pair returned. *)
Definition run_after_loop (gas : nat) (h : Heap) (root : nat)
  : py (option Move * list (list Q)) :=
  let! nd := deref h root in
  let! best_child := py_max Qgtb (win_rate_key h) (children nd) in
  let! bn := deref h best_child in
  let! printed := py_map (fun child => let! cn := deref h child in move_of cn)
                         (children nd) in
  let! pd_distribution := _get_visit_count_distribution gas h root in
  Ok (move bn, pd_distribution).

(** Entry [(x, y)] of a distribution. *)
Definition entry (pd : list (list Q)) (x y : nat) : option Q :=
  pd !! x ≫= (fun row => row !! y).

End AlphaZero.

(** ** Turn time budgeter ([AlphaZeroAgent.allowed_time])

    The source computes in floating point.  [allowed_time_exact] is the same
    expression over the rationals, with 0.97 read as 97/100. *)

Definition decay_rate : Q := 97 # 100.

(** [sum(l)], kept in lowest terms. *)
Definition sum_Q (l : list Q) : Q := fold_left (fun acc x => Qred (acc + x)) l 0%Q.

(** [[decay_rate ** i for i in range(total_turns)]] *)
Definition turn_weights (total_turns : nat) : list Q :=
  map (fun i => Qpower decay_rate (Z.of_nat i)) (seq 0 total_turns).

Definition allowed_time_exact (turn_number : Z) (total_turns : nat) (total_time : Q)
  : py Q :=
  let weights := turn_weights total_turns in
  let total_weight := sum_Q weights in
  let! turn_weight := py_getitem weights (turn_number - 1) in
  Ok ((turn_weight / total_weight) * total_time)%Q.

(** The allotments of turns 1, ..., [total_turns]. *)
Definition allotments (total_turns : nat) (total_time : Q) : py (list Q) :=
  AlphaZero.py_map (fun i => allowed_time_exact (Z.of_nat i) total_turns total_time)
                   (seq 1 total_turns).

Fixpoint strictly_decreasing (l : list Q) : bool :=
  match l with
  | x :: ((y :: _) as l') => Qgtb x y && strictly_decreasing l'
  | _ => true
  end.

(** ** A Board collaborator to run the engine on *)

Module Hex.

(** Modelled from the spec: [Board.set_tile_colour] is not part of the
    sources; the spec has it assign a colour to an empty cell and fail on an
    occupied one. *)
Definition set_tile (b : Board) (x y : Z) (c : Colour) : py Board :=
  if is_within_bounds b x y then
    let! row := py_getitem (board_tiles b) x in
    let! t := py_getitem row y in
    match tile_colour t with
    | Some _ => Raise ValueError
    | None =>
        let row' := <[Z.to_nat y := mkTile (tile_x t) (tile_y t) (Some c)]> row in
        Ok (mkBoard (board_size b) (<[Z.to_nat x := row']> (board_tiles b)))
    end
  else Raise IndexError.

Definition owns (b : Board) (c : Colour) (p : Z * Z) : bool :=
  is_within_bounds b p.1 p.2 &&
  match tile_at b p.1 p.2 with
  | Ok t => has_colour t c
  | _ => false
  end.

(** The cells of colour [c] reachable from the frontier through neighbouring
    cells of colour [c]. *)
Fixpoint flood (fuel : nat) (b : Board) (c : Colour) (frontier visited : list (Z * Z))
  : list (Z * Z) :=
  match fuel with
  | O => visited
  | S fuel' =>
      match frontier with
      | [] => visited
      | p :: rest =>
          if bool_decide (p ∈ visited) then flood fuel' b c rest visited
          else
            let next := map (fun o => (p.1 + o.1, p.2 + o.2)) RELATIVE_NEIGHBOURS in
            flood fuel' b c (List.filter (owns b c) next ++ rest) (p :: visited)
      end
  end.

(** Modelled from the spec: [Board.has_ended] is not part of the sources; the
    spec has it test whether the player has completed a connecting path.  RED
    joins the first row to the last, BLUE the first column to the last. *)
Definition connected (b : Board) (c : Colour) : bool :=
  let n := Z.to_nat (board_size b) in
  let line := map Z.of_nat (seq 0 n) in
  let first_edge :=
    match c with
    | RED => map (fun j => (0, j)) line
    | BLUE => map (fun i => (i, 0)) line
    end in
  let reached :=
    flood (7 * n * n + 1) b c (List.filter (owns b c) first_edge) [] in
  existsb (fun p => match c with
                    | RED => p.1 =? board_size b - 1
                    | BLUE => p.2 =? board_size b - 1
                    end) reached.

(** Modelled from the spec: [Board.get_winner] is not part of the sources;
    the winner is the player with a connecting path. *)
Definition winner (b : Board) : option Colour :=
  if connected b RED then Some RED
  else if connected b BLUE then Some BLUE
  else None.

(** The exploitation term of the UCT score; the exploration term, a square
    root of a logarithm, has no rational value.  The searches run below stop
    before any node is fully expanded, so they never ask for a score. *)
Definition exploitation (child_wins child_visits self_visits : Z) : py Q :=
  AlphaZero.py_truediv child_wins child_visits.

(** A clock read every 0.6 s and a generator that counts. *)
Definition externals : Externals := {|
  set_tile_colour := set_tile;
  has_ended := connected;
  get_winner := winner;
  uct_score := exploitation;
  time_time := fun k => (Z.of_nat k * 6 # 10)%Q;
  randbelow := fun k => k
|}.

End Hex.

(** Node identities only gain children: every live node stays live and keeps
    its children as a prefix of its later children. *)
Definition heap_grows (h h' : Heap) : Prop :=
  forall i nd, h !! i = Some nd ->
    exists nd' extra, h' !! i = Some nd' /\ children nd' = children nd ++ extra.

(** ** Concrete trees, boards and searches used as test inputs *)

Module Examples.

(** A retained root whose only child was expanded for (0,0) on an earlier
    board, looked at when the only empty cell left is (1,1). *)
Definition stale_root : TreeNode := mkNode None None [1%nat] 1 1.
Definition stale_heap : Heap :=
  <[0%nat := stale_root]> (<[1%nat := mkNode (Some (mkMove 0 0)) (Some 0%nat) [] 1 0]> ∅).

(** A root with children for (0,0) and (0,1), on a board whose empty cells
    are exactly those two. *)
Definition full_root : TreeNode := mkNode None None [1%nat; 2%nat] 3 1.
Definition full_heap : Heap :=
  <[0%nat := full_root]>
    (<[1%nat := mkNode (Some (mkMove 0 0)) (Some 0%nat) [] 2 1]>
       (<[2%nat := mkNode (Some (mkMove 0 1)) (Some 0%nat) [] 1 1]> ∅)).

(** A root with a child for Move(3,4) that has been visited. *)
Definition reuse_child : TreeNode := mkNode (Some (mkMove 3 4)) (Some 0%nat) [] 7 3.
Definition reuse_heap : Heap :=
  <[0%nat := mkNode None None [1%nat; 2%nat] 12 6]>
    (<[1%nat := mkNode (Some (mkMove 0 0)) (Some 0%nat) [] 5 3]>
       (<[2%nat := reuse_child]> ∅)).

End Examples.

Module BackpropExample.

(** A path root (0) -> child (1) -> grandchild (2), and a sibling (3). *)
Definition tree : Heap :=
  <[0%nat := mkNode None None [1%nat; 3%nat] 4 2]>
    (<[1%nat := mkNode (Some (mkMove 0 0)) (Some 0%nat) [2%nat] 2 1]>
       (<[2%nat := mkNode (Some (mkMove 0 1)) (Some 1%nat) [] 0 0]>
          (<[3%nat := mkNode (Some (mkMove 1 1)) (Some 0%nat) [] 1 1]> ∅))).

End BackpropExample.

Module PolicyExample.

(** A 3 x 3 board on which RED owns (0,0) and (2,2): the centre is the
    midpoint of the two, seen through the offsets (-1,-1) and (1,1). *)
Definition board : Board :=
  mkBoard 3
    [[mkTile 0 0 (Some RED); mkTile 0 1 None; mkTile 0 2 None];
     [mkTile 1 0 None; mkTile 1 1 None; mkTile 1 2 None];
     [mkTile 2 0 None; mkTile 2 1 None; mkTile 2 2 (Some RED)]].

Definition legal_moves : list Move :=
  [mkMove 0 1; mkMove 0 2; mkMove 1 0; mkMove 1 1; mkMove 1 2; mkMove 2 0; mkMove 2 1].

End PolicyExample.

Module SearchExample.

(** The tree of a search over the two empty cells (0,0) and (1,0) when the
    clock runs out after three iterations whose rollouts were all won:
    A = (0,0) was expanded first, B = (1,0) second; the third iteration
    found the root fully expanded, descended into A (first of two equal
    scores) and expanded A2 = (1,0) below it, which counts as a loss for A. *)
Definition tree : Heap :=
  <[0%nat := mkNode None None [1%nat; 2%nat] 3 1]>
    (<[1%nat := mkNode (Some (mkMove 0 0)) (Some 0%nat) [3%nat] 2 1]>
       (<[2%nat := mkNode (Some (mkMove 1 0)) (Some 0%nat) [] 1 1]>
          (<[3%nat := mkNode (Some (mkMove 1 0)) (Some 1%nat) [] 1 1]> ∅))).

(** A world with one bare root. *)
Definition bare_root : World :=
  mkWorld (<[0%nat := TreeNode_init None None]> ∅) 0 0.

(** The same world once [run] has read its start time. *)
Definition bare_root_started : World :=
  mkWorld (<[0%nat := TreeNode_init None None]> ∅) 1 0.

(** Nothing allocated yet. *)
Definition nothing : World := mkWorld ∅ 0 0.

(** The loop of a one-second search for RED on the empty 2 x 2 board. *)
Definition one_second_loop : py (nat * World) :=
  @run_loop Hex.externals 5 20 RED (empty_board 2) 1%Q 0%nat 0%Q 0%nat
            bare_root_started.

(** RED's first call on the empty 2 x 2 board after BLUE opened at (0,0). *)
Definition first_call : py (Move * Board * nat * World) :=
  @make_move Hex.externals 5 20 RED 1%Q None 1 (empty_board 2)
             (Some (mkMove 0 0)) nothing.

End SearchExample.

(** ** Further definitions: boards *)

(** A board is coherent when the tile stored at [tiles[i][j]] carries the
    coordinates (i, j), as the boards of the framework do. *)
Definition coherent_board (board : Board) : Prop :=
  forall i j row t,
    board_tiles board !! i = Some row -> row !! j = Some t ->
    tile_x t = Z.of_nat i /\ tile_y t = Z.of_nat j.

(** The cell (x, y) lies on the board and holds a tile of the colour. *)
Definition owned_by (board : Board) (colour : Colour) (x y : Z) : Prop :=
  is_within_bounds board x y = true /\
  exists t, tile_at board x y = Ok t /\ tile_colour t = Some colour.

(** The offsets of [RELATIVE_NEIGHBOURS] that stay on the board around (x, y). *)
Definition offsets_on_board (board : Board) (x y : Z) : list (Z * Z) :=
  List.filter (fun o => is_within_bounds board (x + o.1) (y + o.2)) RELATIVE_NEIGHBOURS.

(** The coordinates a tile carries, as a move. *)
Definition move_to (t : Tile) : Move := mkMove (tile_x t) (tile_y t).

Module BoardExample.

(** A 3 x 3 board in mid-game. *)
Definition board : Board :=
  mkBoard 3
    [[mkTile 0 0 (Some RED); mkTile 0 1 (Some BLUE); mkTile 0 2 None];
     [mkTile 1 0 None; mkTile 1 1 None; mkTile 1 2 (Some BLUE)];
     [mkTile 2 0 (Some BLUE); mkTile 2 1 None; mkTile 2 2 (Some RED)]].

End BoardExample.

(** ** Further definitions: the search tree *)

(** [b] is reached from [a] by following child links. *)
Inductive descends (h : Heap) : nat -> nat -> Prop :=
| descends_here a : descends h a a
| descends_child a nd c b :
    h !! a = Some nd -> In c (children nd) -> descends h c b -> descends h a b.

(** Child links and parent links agree: every child of a node is live and
    names that node as its parent. *)
Definition tree_linked (h : Heap) : Prop :=
  forall p nd c, h !! p = Some nd -> In c (children nd) ->
    exists cn, h !! c = Some cn /\ parent cn = Some p.

(** The win count of every node lies between 0 and its visit count. *)
Definition stats_bounded (h : Heap) : Prop :=
  forall i nd, h !! i = Some nd -> 0 <= wins nd <= visits nd.

(** The UCT score of a child of [self], as [best_child] computes it. *)
Definition child_score `{Externals} (h : Heap) (self : TreeNode) (child : nat) : py Q :=
  let! cn := deref h child in uct_score (wins cn) (visits cn) (visits self).

(** ** Further definitions: mcts.py and AlphaZeroAgent.py *)

Module AlphaZeroMore.

(** [range(n)] *)
Definition py_range (n : Z) : list Z := map Z.of_nat (seq 0 (Z.to_nat n)).

(** The filter of [get_all_moves]: the choices whose tile is empty
    ([board.tiles[x][y].colour == None]), in order. *)
Fixpoint empty_choices (board : Board) (choices : list (Z * Z)) : py (list Move) :=
  match choices with
  | [] => Ok []
  | (x, y) :: rest =>
      let! t := tile_at board x y in
      let! more := empty_choices board rest in
      Ok (if is_available t then mkMove x y :: more else more)
  end.

(** [MCTS.get_all_moves(self, board)] of mcts.py *)
Definition get_all_moves (board : Board) : py (list Move) :=
  let choices :=
    flat_map (fun i => map (fun j => (i, j)) (py_range (board_size board)))
             (py_range (board_size board)) in
  empty_choices board choices.

(** [AlphaZeroAgent._board_size] *)
Definition _board_size : Z := 11.

(** One entry of the board vector: 0 for an empty tile, 1 for a tile of the
    agent's colour, -1 otherwise. *)
Definition encode_tile (colour : Colour) (t : Tile) : Z :=
  match tile_colour t with
  | None => 0
  | Some c => if decide (c = colour) then 1 else -1
  end.

(** [AlphaZeroAgent.get_board_vector(self, board)], for an agent of the given
    colour. *)
Definition get_board_vector (colour : Colour) (board : Board) : py (list (list Z)) :=
  AlphaZero.py_map
    (fun i => AlphaZero.py_map
                (fun j => let! t := tile_at board i j in Ok (encode_tile colour t))
                (py_range _board_size))
    (py_range _board_size).

End AlphaZeroMore.

Module AlphaZeroCounts.

(** The total of a grid of counts: [sum(sum(row) for row in board)]. *)
Definition grid_total (distribution_board : list (list Z)) : Z :=
  AlphaZero.sum_Z (map AlphaZero.sum_Z distribution_board).

(** The nodes below [node], in the order [_count_visits_DFS] meets them:
    each child followed by its own descendants. *)
Fixpoint descendants (gas : nat) (h : Heap) (node : nat) : py (list nat) :=
  match gas with
  | O => Diverge
  | S gas' =>
      let! nd := deref h node in
      (fix each_child (cs : list nat) : py (list nat) :=
         match cs with
         | [] => Ok []
         | child :: cs' =>
             let! below := descendants gas' h child in
             let! rest := each_child cs' in
             Ok (child :: below ++ rest)
         end) (children nd)
  end.

(** The visit counts of a list of nodes, added up. *)
Definition total_visits (h : Heap) (nodes : list nat) : Z :=
  AlphaZero.sum_Z (map (fun n => match h !! n with
                                 | Some nd => visits nd
                                 | None => 0
                                 end) nodes).

(** Two grids have the same shape. *)
Definition same_shape {A B} (g : list (list A)) (g' : list (list B)) : Prop :=
  Forall2 (fun row row' => length row = length row') g g'.

End AlphaZeroCounts.

Module MoreExamples.

(** The first expansion of a bare root on the empty 2 x 2 board. *)
Definition first_expansion : py (nat * World) :=
  @_expand Hex.externals (empty_board 2) 0%nat SearchExample.bare_root.

(** The distribution of the example search tree. *)
Definition example_distribution : py (list (list Q)) :=
  AlphaZero._get_visit_count_distribution 3 SearchExample.tree 0%nat.

(** RED's first call with no time at all. *)
Definition call_without_budget : py (Move * Board * nat * World) :=
  @make_move Hex.externals 5 20 RED 0%Q None 1 (empty_board 2) None
             SearchExample.nothing.

End MoreExamples.

Module SimulationExample.

(** A root with one child for (0,0), before any visit. *)
Definition world : World := mkWorld Examples.stale_heap 0 0.

(** A rollout for RED from the child, on the empty 2 x 2 board. *)
Definition simulation : py (Z * World) :=
  @_simulate Hex.externals 20 RED (empty_board 2) 1%nat world.

End SimulationExample.

(** * Properties *)

Lemma rbind_Ok {A B} (r : py A) (k : A -> py B) b :
  rbind r k = Ok b -> exists a, r = Ok a /\ k a = Ok b.
Proof. destruct r; simpl; intros H; try discriminate. eauto. Qed.

Lemma deref_Ok (h : Heap) i nd : deref h i = Ok nd <-> h !! i = Some nd.
Proof. unfold deref. destruct (h !! i); split; congruence. Qed.

Lemma alloc_fresh (h : Heap) nd i h' :
  alloc h nd = (i, h') -> h !! i = None /\ h' = <[i := nd]> h.
Proof.
  unfold alloc. intros [= <- <-]. split; [|done].
  apply not_elem_of_dom. apply is_fresh.
Qed.

(** ** The search tree *)

Section TreeProperties.

Implicit Types (h : Heap) (self : TreeNode) (mv : Move).


Lemma moves_of_app h cs cs' : moves_of h (cs ++ cs') = moves_of h cs ++ moves_of h cs'.
Proof. unfold moves_of. apply map_app. Qed.



End TreeProperties.

Section TreeClaims.

Implicit Types (h : Heap) (self : TreeNode) (mv : Move).




Lemma moves_of_ext h h' cs :
  (forall c, In c cs -> h' !! c ≫= move = h !! c ≫= move) ->
  moves_of h' cs = moves_of h cs.
Proof. intros H. unfold moves_of. apply map_ext_in. exact H. Qed.

(** What [add_child] does to the heap: a new object for the child, and the
    child appended to the children of [self]. *)
Lemma add_child_Ok h i self mv :
  h !! i = Some self ->
  exists c, add_child h i mv = Ok (c, <[i := mkNode (move self) (parent self)
                                             (children self ++ [c])
                                             (visits self) (wins self)]>
                                       (<[c := TreeNode_init (Some mv) (Some i)]> h))
            /\ h !! c = None /\ c <> i.
Proof.
  intros Hi. unfold add_child. rewrite (proj2 (deref_Ok _ _ _) Hi). cbn [rbind].
  destruct (alloc h (TreeNode_init (Some mv) (Some i))) as [c h1] eqn:Ha.
  apply alloc_fresh in Ha as [Hc ->].
  exists c. split; [done|]. split; [done|]. congruence.
Qed.

(** C6, as stated, fails: [add_child] has no membership check.  On a root
    that already has a child for (0,0), [add_child(root, Move(0,0))] returns
    a second child, and the two siblings share the move. *)
Lemma add_child_duplicates_move :
  exists c h' self',
    add_child Examples.stale_heap 0%nat (mkMove 0 0) = Ok (c, h') /\
    h' !! 0%nat = Some self' /\
    ~ distinct_sibling_moves h' self'.
Proof.
  eexists _, _, _. split; [vm_compute; reflexivity|].
  split; [vm_compute; reflexivity|].
  unfold distinct_sibling_moves. vm_compute.
  intros H. inversion H as [|x l Hin _]; subst. apply Hin. left. reflexivity.
Qed.

(** The children of [self] after [add_child]: the old ones and the new one,
    whose moves are pairwise distinct when the old ones were and the move is
    new among them. *)
Lemma add_child_siblings h i self mv :
  h !! i = Some self ->
  closed_refs h (children self) ->
  exists c h' self',
    add_child h i mv = Ok (c, h') /\
    h !! c = None /\
    h' !! c = Some (mkNode (Some mv) (Some i) [] 0 0) /\
    h' !! i = Some self' /\
    children self' = children self ++ [c] /\
    (distinct_sibling_moves h self ->
     ~ In (Some mv) (moves_of h (children self)) ->
     distinct_sibling_moves h' self').
Proof.
  intros Hi Hclosed.
  destruct (add_child_Ok h i self mv Hi) as (c & Hadd & Hc & Hne).
  eexists c, _, _. split; [exact Hadd|]. split; [exact Hc|].
  split; [by rewrite lookup_insert_ne, lookup_insert_eq|].
  split; [by rewrite lookup_insert_eq|].
  split; [reflexivity|].
  unfold distinct_sibling_moves. simpl. intros Hnd Hnotin.
  rewrite moves_of_app.
  rewrite (moves_of_ext h _ (children self)).
  - simpl. rewrite lookup_insert_ne, lookup_insert_eq by done. simpl.
    apply NoDup_ListNoDup. apply NoDup_app. repeat split.
    + by apply NoDup_ListNoDup.
    + intros om Hom Hom'. apply list_elem_of_In in Hom.
      apply list_elem_of_singleton in Hom'. by subst.
    + apply NoDup_singleton.
  - intros x Hx.
    assert (Hsome : is_Some (h !! x)).
    { unfold closed_refs in Hclosed. rewrite Forall_forall in Hclosed.
      apply Hclosed. by apply list_elem_of_In. }
    destruct (decide (x = i)) as [->|Hxi].
    + by rewrite lookup_insert_eq, Hi.
    + rewrite lookup_insert_ne by done.
      rewrite lookup_insert_ne; [done|].
      intros ->. rewrite Hc in Hsome. by destruct Hsome.
Qed.

(** C6 (amended): [add_child] never fails on a live node: it always creates a
    new child object carrying the move, with zero statistics and [self] as
    parent, and appends it to the children of [self]; the children carry
    pairwise distinct moves afterwards provided they did before and the move
    was not carried by a child already. *)
Theorem add_child_appends h i self mv :
  h !! i = Some self ->
  closed_refs h (children self) ->
  exists c h' self',
    add_child h i mv = Ok (c, h') /\
    h !! c = None /\
    h' !! c = Some (mkNode (Some mv) (Some i) [] 0 0) /\
    h' !! i = Some self' /\
    children self' = children self ++ [c] /\
    (distinct_sibling_moves h self ->
     ~ In (Some mv) (moves_of h (children self)) ->
     distinct_sibling_moves h' self').
Proof. apply add_child_siblings. Qed.

Lemma add_child_appends_witness :
  exists c h' self',
    add_child Examples.full_heap 0%nat (mkMove 1 1) = Ok (c, h') /\
    Examples.full_heap !! c = None /\
    h' !! c = Some (mkNode (Some (mkMove 1 1)) (Some 0%nat) [] 0 0) /\
    h' !! 0%nat = Some self' /\
    children self' = children Examples.full_root ++ [c] /\
    (distinct_sibling_moves Examples.full_heap Examples.full_root ->
     ~ In (Some (mkMove 1 1))
          (moves_of Examples.full_heap (children Examples.full_root)) ->
     distinct_sibling_moves h' self').
Proof.
  apply (add_child_appends Examples.full_heap 0%nat Examples.full_root (mkMove 1 1)).
  - reflexivity.
  - unfold closed_refs. repeat constructor; vm_compute; eauto.
Defined.

(** The loop of [update_tree] returns the first child carrying the move. *)
Lemma find_child_found h cs mv :
  closed_refs h cs ->
  In (Some mv) (moves_of h cs) ->
  exists pre c post cn,
    find_child h cs mv = Ok (Some c) /\
    cs = pre ++ c :: post /\ ~ In (Some mv) (moves_of h pre) /\
    h !! c = Some cn /\ move cn = Some mv.
Proof.
  induction cs as [|x cs IH]; intros Hclosed Hin; [destruct Hin|].
  unfold closed_refs in Hclosed. apply Forall_cons in Hclosed as [[xn Hx] Hclosed].
  cbn [find_child]. rewrite (proj2 (deref_Ok _ _ _) Hx). cbn [rbind].
  destruct (decide (move xn = Some mv)) as [Heq|Hne].
  - exists [], x, cs, xn. simpl. tauto.
  - destruct Hin as [Hin|Hin].
    { simpl in Hin. rewrite Hx in Hin. simpl in Hin. contradiction. }
    destruct (IH Hclosed Hin) as (pre & c & post & cn & Hf & -> & Hpre & Hc & Hmv).
    exists (x :: pre), c, post, cn. split; [exact Hf|]. split; [reflexivity|].
    split; [|done]. simpl. rewrite Hx. simpl. intros [?|?]; contradiction.
Qed.

Lemma find_child_none h cs mv :
  closed_refs h cs ->
  ~ In (Some mv) (moves_of h cs) ->
  find_child h cs mv = Ok None.
Proof.
  induction cs as [|x cs IH]; intros Hclosed Hnotin; [reflexivity|].
  unfold closed_refs in Hclosed. apply Forall_cons in Hclosed as [[xn Hx] Hclosed].
  cbn [find_child]. rewrite (proj2 (deref_Ok _ _ _) Hx). cbn [rbind].
  simpl in Hnotin. rewrite Hx in Hnotin. simpl in Hnotin.
  destruct (decide (move xn = Some mv)) as [Heq|Hne]; [tauto|].
  apply IH; [exact Hclosed|tauto].
Qed.

(** C7: tree reuse.  When some child of the retained node carries the
    opponent's move, [update_tree] returns that very child (the first one, by
    identity) and leaves the heap, hence the child's visits and wins, as they
    were; when no child carries it, [update_tree] returns a newly allocated
    node for the move with visits = 0 and wins = 0. *)
Theorem update_tree_reuses_or_creates h tree nd mv :
  h !! tree = Some nd ->
  closed_refs h (children nd) ->
  (In (Some mv) (moves_of h (children nd)) ->
   exists pre c post cn,
     update_tree h tree mv = Ok (c, h) /\
     children nd = pre ++ c :: post /\ ~ In (Some mv) (moves_of h pre) /\
     h !! c = Some cn /\ move cn = Some mv) /\
  (~ In (Some mv) (moves_of h (children nd)) ->
   exists c,
     update_tree h tree mv = Ok (c, <[c := mkNode (Some mv) (Some tree) [] 0 0]> h) /\
     h !! c = None).
Proof.
  intros Htree Hclosed. unfold update_tree.
  rewrite (proj2 (deref_Ok _ _ _) Htree). cbn [rbind]. split.
  - intros Hin.
    destruct (find_child_found h _ mv Hclosed Hin)
      as (pre & c & post & cn & -> & Hcs & Hpre & Hc & Hmv).
    exists pre, c, post, cn. cbn [rbind]. done.
  - intros Hnotin. rewrite (find_child_none h _ mv Hclosed Hnotin). cbn [rbind].
    destruct (alloc h (TreeNode_init (Some mv) (Some tree))) as [c h'] eqn:Ha.
    apply alloc_fresh in Ha as [Hc ->]. exists c. done.
Qed.

Lemma update_tree_reuses_or_creates_witness :
  (In (Some (mkMove 3 4)) (moves_of Examples.reuse_heap [1%nat; 2%nat]) ->
   exists pre c post cn,
     update_tree Examples.reuse_heap 0%nat (mkMove 3 4) = Ok (c, Examples.reuse_heap) /\
     [1%nat; 2%nat] = pre ++ c :: post /\
     ~ In (Some (mkMove 3 4)) (moves_of Examples.reuse_heap pre) /\
     Examples.reuse_heap !! c = Some cn /\ move cn = Some (mkMove 3 4)) /\
  (~ In (Some (mkMove 3 4)) (moves_of Examples.reuse_heap [1%nat; 2%nat]) ->
   exists c,
     update_tree Examples.reuse_heap 0%nat (mkMove 3 4)
     = Ok (c, <[c := mkNode (Some (mkMove 3 4)) (Some 0%nat) [] 0 0]> Examples.reuse_heap) /\
     Examples.reuse_heap !! c = None).
Proof.
  apply (update_tree_reuses_or_creates Examples.reuse_heap 0%nat
           (mkNode None None [1%nat; 2%nat] 12 6) (mkMove 3 4)).
  - reflexivity.
  - unfold closed_refs. repeat constructor; vm_compute; eauto.
Defined.

(** The two cases of tree reuse on the example of the spec: a root with a
    child for Move(3,4), visited 7 times with 3 wins. *)
Example update_tree_seen_move :
  update_tree Examples.reuse_heap 0%nat (mkMove 3 4) = Ok (2%nat, Examples.reuse_heap) /\
  Examples.reuse_heap !! 2%nat = Some Examples.reuse_child.
Proof. split; reflexivity. Qed.

Example update_tree_unseen_move :
  update_tree Examples.reuse_heap 0%nat (mkMove 9 9)
  = Ok (3%nat, <[3%nat := mkNode (Some (mkMove 9 9)) (Some 0%nat) [] 0 0]>
                 Examples.reuse_heap).
Proof. vm_compute. reflexivity. Qed.

End TreeClaims.

(** ** Backpropagation *)

Section Backpropagation.

Implicit Types (h : Heap) (n : nat) (l : list nat) (r : Z).

Lemma parent_chain_head h n l : parent_chain h n l -> exists l', l = n :: l'.
Proof. destruct 1; eauto. Qed.

Lemma parent_chain_det h n l l' :
  parent_chain h n l -> parent_chain h n l' -> l = l'.
Proof.
  intros H. revert l'. induction H as [n nd Hn Hp|n nd p l Hn Hp Hl IH];
    intros l' H'; inversion H' as [n' nd' Hn' Hp'|n' nd' p' l'' Hn' Hp' Hl']; subst;
    rewrite Hn in Hn'; injection Hn' as <-; try congruence.
  rewrite Hp in Hp'. injection Hp' as <-. f_equal. by apply IH.
Qed.

(** Every node on the chain heads a chain of its own, a suffix of the first. *)
Lemma parent_chain_suffix h n l m :
  parent_chain h n l -> In m l ->
  exists pre suf, l = pre ++ suf /\ parent_chain h m suf.
Proof.
  induction 1 as [n nd Hn Hp|n nd p l Hn Hp Hl IH]; intros Hin.
  - destruct Hin as [<-|[]]. exists [], [n]. split; [done|]. by eapply chain_root.
  - destruct Hin as [<-|Hin].
    + exists [], (n :: l). split; [done|]. by eapply chain_step.
    + destruct (IH Hin) as (pre & suf & -> & Hsuf).
      exists (n :: pre), suf. done.
Qed.

(** The parent links admit no cycle along a chain that reaches a root. *)
Lemma parent_chain_NoDup h n l : parent_chain h n l -> List.NoDup l.
Proof.
  induction 1 as [n nd Hn Hp|n nd p l Hn Hp Hl IH].
  - constructor; [intros []|constructor].
  - constructor; [|exact IH]. intros Hin.
    destruct (parent_chain_suffix h p l n Hl Hin) as (pre & suf & Heq & Hsuf).
    assert (Hfull : parent_chain h n (n :: l)) by (by eapply chain_step).
    pose proof (parent_chain_det _ _ _ _ Hsuf Hfull) as ->.
    apply (f_equal (@length nat)) in Heq. rewrite length_app in Heq. simpl in Heq. lia.
Qed.

(** A chain only depends on the parent links. *)
Lemma parent_chain_ext h h' n l :
  (forall i, parent <$> h' !! i = parent <$> h !! i) ->
  parent_chain h n l -> parent_chain h' n l.
Proof.
  intros Hext. induction 1 as [n nd Hn Hp|n nd p l Hn Hp Hl IH].
  - specialize (Hext n). rewrite Hn in Hext.
    destruct (h' !! n) as [nd'|] eqn:Hn'; [|discriminate].
    injection Hext as Hext. eapply chain_root; [exact Hn'|congruence].
  - specialize (Hext n). rewrite Hn in Hext.
    destruct (h' !! n) as [nd'|] eqn:Hn'; [|discriminate].
    injection Hext as Hext.
    apply (chain_step h' n nd' p l Hn'); [congruence|exact IH].
Qed.

Lemma result_at_alternates r d :
  result_at r d = if Nat.even d then r else 1 - r.
Proof.
  revert r. induction d as [d IH] using lt_wf_ind. intros r.
  destruct d as [|[|d]]; [reflexivity..|].
  cbn [result_at]. rewrite IH by lia.
  replace (1 - (1 - r)) with r by lia. reflexivity.
Qed.

Lemma result_at_complement r d : result_at r d + result_at r (S d) = 1.
Proof.
  rewrite !result_at_alternates, Nat.even_succ, <- Nat.negb_even.
  destruct (Nat.even d); simpl; lia.
Qed.

Lemma backpropagate_None fuel h r : _backpropagate fuel h None r = Ok h.
Proof. by destruct fuel. Qed.

Lemma backpropagate_chain l : forall h n r fuel,
  parent_chain h n l ->
  (length l <= fuel)%nat ->
  exists h',
    _backpropagate fuel h (Some n) r = Ok h' /\
    (forall d i nd, l !! d = Some i -> h !! i = Some nd ->
                    h' !! i = Some (bumped nd (result_at r d))) /\
    (forall i, ~ In i l -> h' !! i = h !! i).
Proof.
  induction l as [|x l IH]; intros h n r fuel Hchain Hfuel.
  { apply parent_chain_head in Hchain as [? [=]]. }
  pose proof (parent_chain_NoDup _ _ _ Hchain) as Hnd.
  apply List.NoDup_cons_iff in Hnd as [Hxl Hnd].
  destruct fuel as [|fuel]; [simpl in Hfuel; lia|].
  inversion Hchain as [n' nd Hn Hp|n' nd p l' Hn Hp Hl]; subst.
  - cbn [_backpropagate]. rewrite (proj2 (deref_Ok _ _ _) Hn). cbn [rbind].
    rewrite Hp, backpropagate_None. eexists. split; [reflexivity|]. split.
    + intros [|d] i nd' Hd Hi; [|done]. injection Hd as <-.
      rewrite Hn in Hi. injection Hi as <-. by rewrite lookup_insert_eq.
    + intros i Hi. rewrite lookup_insert_ne; [done|]. intros ->. apply Hi. by left.
  - cbn [_backpropagate]. rewrite (proj2 (deref_Ok _ _ _) Hn). cbn [rbind].
    rewrite Hp.
    assert (Hl' : parent_chain (<[x := bumped nd r]> h) p l).
    { apply (parent_chain_ext h); [|exact Hl]. intros i.
      destruct (decide (x = i)) as [<-|Hne].
      - by rewrite lookup_insert_eq, Hn.
      - by rewrite lookup_insert_ne. }
    destruct (IH _ p (1 - r) fuel Hl') as (h' & Hrun & Hon & Hoff);
      [simpl in Hfuel; lia|].
    exists h'. split; [exact Hrun|]. split.
    + intros [|d] i nd' Hd Hi.
      * injection Hd as <-. rewrite Hn in Hi. injection Hi as <-.
        rewrite (Hoff x Hxl). by rewrite lookup_insert_eq.
      * cbn [result_at]. simpl in Hd. apply (Hon d i nd' Hd).
        rewrite lookup_insert_ne; [exact Hi|].
        intros ->. apply Hxl. apply list_elem_of_In. by eapply list_elem_of_lookup_2.
    + intros i Hi. rewrite Hoff by (intros ?; apply Hi; by right).
      rewrite lookup_insert_ne; [done|]. intros ->. apply Hi. by left.
Qed.

(** C2: one backpropagation pass from node [n] with result [r] returns; every
    node on the path from [n] up to the root (the node at depth [d] above
    [n]) gets visits + 1 and wins + v_d, where v_0 = r and v_d + v_(d+1) = 1,
    that is v_d alternates between r and 1 - r; move, parent and children of
    those nodes, and every node off the path, are left as they were.  The
    statement holds for every integer [r], in particular for 0 and 1. *)
Theorem backpropagate_path h n l r fuel :
  parent_chain h n l ->
  (length l <= fuel)%nat ->
  exists h',
    _backpropagate fuel h (Some n) r = Ok h' /\
    (forall d i nd, l !! d = Some i -> h !! i = Some nd ->
       exists nd', h' !! i = Some nd' /\
         visits nd' = visits nd + 1 /\
         wins nd' = wins nd + result_at r d /\
         move nd' = move nd /\ parent nd' = parent nd /\
         children nd' = children nd) /\
    (forall i, ~ In i l -> h' !! i = h !! i) /\
    (forall d, result_at r d = (if Nat.even d then r else 1 - r) /\
               result_at r d + result_at r (S d) = 1).
Proof.
  intros Hchain Hfuel.
  destruct (backpropagate_chain l h n r fuel Hchain Hfuel) as (h' & Hrun & Hon & Hoff).
  exists h'. split; [exact Hrun|]. split; [|split; [exact Hoff|]].
  - intros d i nd Hd Hi. exists (bumped nd (result_at r d)).
    split; [by eapply Hon|]. done.
  - intros d. split; [apply result_at_alternates|apply result_at_complement].
Qed.

Lemma backpropagate_path_witness :
  exists h',
    _backpropagate 3 BackpropExample.tree (Some 2%nat) 1 = Ok h' /\
    (forall d i nd, [2%nat; 1%nat; 0%nat] !! d = Some i ->
       BackpropExample.tree !! i = Some nd ->
       exists nd', h' !! i = Some nd' /\
         visits nd' = visits nd + 1 /\
         wins nd' = wins nd + result_at 1 d /\
         move nd' = move nd /\ parent nd' = parent nd /\
         children nd' = children nd) /\
    (forall i, ~ In i [2%nat; 1%nat; 0%nat] -> h' !! i = BackpropExample.tree !! i) /\
    (forall d, result_at 1 d = (if Nat.even d then 1 else 1 - 1) /\
               result_at 1 d + result_at 1 (S d) = 1).
Proof.
  apply (backpropagate_path BackpropExample.tree 2%nat [2%nat; 1%nat; 0%nat] 1 3).
  - eapply chain_step; [reflexivity|reflexivity|].
    eapply chain_step; [reflexivity|reflexivity|].
    eapply chain_root; reflexivity.
  - simpl. lia.
Defined.

(** The pass on the example path: the grandchild and the root receive 1, the
    child in between receives 0, the sibling is untouched. *)
Example backpropagate_example :
  _backpropagate 3 BackpropExample.tree (Some 2%nat) 1
  = Ok (<[0%nat := mkNode None None [1%nat; 3%nat] 5 3]>
         (<[1%nat := mkNode (Some (mkMove 0 0)) (Some 0%nat) [2%nat] 3 1]>
            (<[2%nat := mkNode (Some (mkMove 0 1)) (Some 1%nat) [] 1 1]>
               (<[3%nat := mkNode (Some (mkMove 1 1)) (Some 0%nat) [] 1 1]> ∅)))).
Proof. vm_compute. reflexivity. Qed.

End Backpropagation.

(** ** Rollout policy *)

Section RolloutPolicy.

Implicit Types (board : Board) (colour : Colour) (mv : Move).

Lemma py_getitem_in_range {A} (l : list A) (i : Z) :
  0 <= i < Z.of_nat (length l) -> exists a, py_getitem l i = Ok a.
Proof.
  intros Hi. unfold py_getitem.
  destruct (Z.ltb_spec i 0) as [?|_]; [lia|].
  destruct (Z.leb_spec 0 i) as [_|?]; [|lia].
  destruct (Z.ltb_spec i (Z.of_nat (length l))) as [_|?]; [|lia].
  cbn [andb].
  destruct (l !! Z.to_nat i) as [a|] eqn:Hl; [eauto|].
  apply lookup_ge_None in Hl. lia.
Qed.

Lemma py_getitem_elem {A} (l : list A) (i : Z) a : py_getitem l i = Ok a -> In a l.
Proof.
  unfold py_getitem.
  destruct (_ && _); [|discriminate].
  destruct (l !! _) as [b|] eqn:Hl; [|discriminate].
  intros [= <-]. apply list_elem_of_In. by eapply list_elem_of_lookup_2.
Qed.

Lemma tile_at_Ok board x y :
  well_formed_board board -> is_within_bounds board x y = true ->
  exists t, tile_at board x y = Ok t.
Proof.
  intros [Hrows Hcols] Hin. unfold is_within_bounds in Hin.
  apply andb_prop in Hin as [Hx Hy].
  apply andb_prop in Hx as [Hx1 Hx2]. apply andb_prop in Hy as [Hy1 Hy2].
  apply Z.leb_le in Hx1, Hy1. apply Z.ltb_lt in Hx2, Hy2.
  unfold tile_at.
  destruct (py_getitem_in_range (board_tiles board) x) as [row Hrow]; [lia|].
  rewrite Hrow. cbn [rbind].
  apply py_getitem_elem in Hrow.
  rewrite Forall_forall in Hcols.
  apply py_getitem_in_range. rewrite (Hcols row); [lia|]. by apply list_elem_of_In.
Qed.

Lemma neighbours_at_Ok board x y offsets :
  well_formed_board board -> exists ts, neighbours_at board x y offsets = Ok ts.
Proof.
  intros Hwf. induction offsets as [|[xo yo] rest [ts IH]]; [by eexists|].
  cbn [neighbours_at].
  destruct (is_within_bounds board (x + xo) (y + yo)) eqn:Hin; [|eauto].
  destruct (tile_at_Ok _ _ _ Hwf Hin) as [t ->]. rewrite IH. by eexists.
Qed.












(** On the example board the centre is the only savebridge move for RED, so
    the policy plays it whatever the draw. *)
Example savebridge_example :
  _get_legal_moves PolicyExample.board = Ok PolicyExample.legal_moves /\
  savebridge PolicyExample.board RED PolicyExample.legal_moves = Ok [mkMove 1 1] /\
  _default_policy 5 PolicyExample.board RED PolicyExample.legal_moves = Ok (mkMove 1 1).
Proof. repeat split; vm_compute; reflexivity. Qed.

End RolloutPolicy.

(** ** The search engine *)

Section MonadLemmas.

Lemma mbind_Ok {A B} (m : M A) (k : A -> M B) w b w' :
  mbind m k w = Ok (b, w') ->
  exists a w1, m w = Ok (a, w1) /\ k a w1 = Ok (b, w').
Proof.
  unfold mbind. destruct (m w) as [[a w1]| |]; intros Hk; try discriminate. eauto.
Qed.

Lemma reading_Ok {A} (f : Heap -> py A) w a w' :
  reading f w = Ok (a, w') -> w' = w /\ f (heap w) = Ok a.
Proof. unfold reading. destruct (f (heap w)); intros [=]; subst; done. Qed.

Lemma lift_Ok {A} (r : py A) w a w' : lift r w = Ok (a, w') -> w' = w /\ r = Ok a.
Proof. unfold lift. apply reading_Ok. Qed.

Lemma updating_Ok {A} (f : Heap -> py (A * Heap)) w a w' :
  updating f w = Ok (a, w') ->
  exists h', f (heap w) = Ok (a, h') /\ w' = mkWorld h' (ticks w) (draws w).
Proof.
  unfold updating. destruct (f (heap w)) as [[a' h']| |]; intros [=]; subst. eauto.
Qed.

Lemma mret_Ok {A} (a : A) w b w' : mret a w = Ok (b, w') -> b = a /\ w' = w.
Proof. unfold mret. by intros [= <- <-]. Qed.

End MonadLemmas.

(** Inverts [H : (let* x := m in k) w = Ok _] into the run of [m], named
    [Hm] with its result [a] and world [w], and the run of [k], left in [H]. *)
Tactic Notation "bind_inv" hyp(H) "as" ident(a) ident(w) ident(Hm) :=
  apply mbind_Ok in H as (a & w & Hm & H).

Section PyMaxLemmas.

Context {A : Type} (key : A -> py Z).



End PyMaxLemmas.

Section FinalChoice.

Context `{Externals}.


End FinalChoice.

(** C1: the run of mcts.py does not return the most visited child.  On the
    tree left by three won iterations over two cells, child (0,0) has 2
    visits and 1 win and child (1,0) has 1 visit and 1 win:
    [max(root.children, key=visits)], the choice of MCTSAgent.py, is (0,0),
    while mcts.py, whose key is [wins / visits], returns (1,0). *)
Theorem mcts_run_returns_best_win_rate :
  (exists pd, AlphaZero.run_after_loop 3 SearchExample.tree 0%nat
              = Ok (Some (mkMove 1 0), pd)) /\
  most_visited_child SearchExample.tree 0%nat = Ok 1%nat /\
  move <$> SearchExample.tree !! 1%nat = Some (Some (mkMove 0 0)) /\
  visits_key SearchExample.tree 1%nat = Ok 2 /\
  visits_key SearchExample.tree 2%nat = Ok 1.
Proof.
  split; [eexists; vm_compute; reflexivity|]. repeat split.
Qed.

(** C9: the distribution of mcts.py counts the visits of every descendant of
    the root, not of its children only.  On the same tree the children of the
    root hold (0,0) with 2 visits and (1,0) with 1 visit, so the claim gives
    2/3 and 1/3; the code adds the visit of the grandchild on (1,0) and
    returns 2/4 and 2/4. *)
Theorem visit_distribution_counts_descendants :
  exists pd,
    AlphaZero._get_visit_count_distribution 3 SearchExample.tree 0%nat = Ok pd /\
    AlphaZero.entry pd 0 0 = Some (2 # 4)%Q /\
    AlphaZero.entry pd 1 0 = Some (2 # 4)%Q /\
    ~ (2 # 4 == 2 # 3)%Q /\ ~ (2 # 4 == 1 # 3)%Q.
Proof.
  eexists. split; [vm_compute; reflexivity|].
  split; [reflexivity|]. split; [reflexivity|]. split; discriminate.
Qed.

Section Growth.

Implicit Types (h : Heap) (w : World).

Lemma heap_grows_refl h : heap_grows h h.
Proof. intros i nd Hi. exists nd, []. by rewrite app_nil_r. Qed.

Lemma heap_grows_trans h1 h2 h3 :
  heap_grows h1 h2 -> heap_grows h2 h3 -> heap_grows h1 h3.
Proof.
  intros H12 H23 i nd Hi.
  destruct (H12 i nd Hi) as (nd2 & e2 & Hi2 & Hc2).
  destruct (H23 i nd2 Hi2) as (nd3 & e3 & Hi3 & Hc3).
  exists nd3, (e2 ++ e3). split; [done|]. by rewrite Hc3, Hc2, <- app_assoc.
Qed.

Lemma heap_grows_alloc h c nd : h !! c = None -> heap_grows h (<[c := nd]> h).
Proof.
  intros Hc i ni Hi. exists ni, []. rewrite app_nil_r. split; [|done].
  rewrite lookup_insert_ne; [done|]. congruence.
Qed.

Lemma heap_grows_update h i nd nd' extra :
  h !! i = Some nd -> children nd' = children nd ++ extra ->
  heap_grows h (<[i := nd']> h).
Proof.
  intros Hi Hc j nj Hj. destruct (decide (i = j)) as [<-|Hne].
  - rewrite Hi in Hj. injection Hj as <-. exists nd', extra.
    by rewrite lookup_insert_eq.
  - exists nj, []. rewrite app_nil_r. by rewrite lookup_insert_ne.
Qed.

Lemma add_child_grows h i mv c h' :
  add_child h i mv = Ok (c, h') ->
  heap_grows h h' /\ exists nd', h' !! i = Some nd' /\ children nd' <> [].
Proof.
  intros Hadd.
  assert (exists self, h !! i = Some self) as [self Hi].
  { unfold add_child in Hadd. apply rbind_Ok in Hadd as (self & Hd & _).
    apply deref_Ok in Hd. eauto. }
  destruct (add_child_Ok h i self mv Hi) as (c' & Hadd' & Hc' & Hne).
  rewrite Hadd' in Hadd. injection Hadd as <- <-. split.
  - eapply heap_grows_trans; [by apply heap_grows_alloc|].
    eapply heap_grows_update with (nd := self) (extra := [c']); [|done].
    by rewrite lookup_insert_ne.
  - eexists. rewrite lookup_insert_eq. split; [done|]. simpl.
    intros Hnil. by apply app_eq_nil in Hnil as [_ ?].
Qed.

Lemma backpropagate_grows fuel : forall h node r h',
  _backpropagate fuel h node r = Ok h' -> heap_grows h h'.
Proof.
  induction fuel as [|fuel IH]; intros h [n|] r h' Hrun; cbn [_backpropagate] in Hrun;
    try discriminate; try (injection Hrun as <-; apply heap_grows_refl).
  apply rbind_Ok in Hrun as (nd & Hnd & Hrun). apply deref_Ok in Hnd.
  eapply heap_grows_trans; [|by eapply IH].
  eapply heap_grows_update with (extra := []); [exact Hnd|].
  by rewrite app_nil_r.
Qed.

Lemma get_legal_moves_nonempty board legal_moves :
  _get_legal_moves board = Ok legal_moves -> legal_moves <> [].
Proof.
  unfold _get_legal_moves.
  destruct (List.filter _ _) as [|t ts]; simpl; [discriminate|].
  by intros [= <-].
Qed.

Context `{Externals}.

Lemma expand_grows board node w n' w' :
  _expand board node w = Ok (n', w') ->
  heap_grows (heap w) (heap w') /\
  (forall nd, heap w !! node = Some nd -> children nd = [] ->
              exists nd', heap w' !! node = Some nd' /\ children nd' <> []).
Proof.
  unfold _expand. intros Hex.
  bind_inv Hex as legal w1 Hlegal. apply lift_Ok in Hlegal as [-> Hlegal].
  bind_inv Hex as nd0 w2 Hnd. apply reading_Ok in Hnd as [-> Hnd].
  apply deref_Ok in Hnd.
  bind_inv Hex as taken w3 Htaken. apply reading_Ok in Htaken as [-> Htaken].
  destruct (0 <? length _)%nat eqn:Hlen.
  - bind_inv Hex as r w4 Hdraw. injection Hdraw as <- <-.
    bind_inv Hex as new_move w5 Hchoice. apply lift_Ok in Hchoice as [-> Hchoice].
    apply updating_Ok in Hex as (h' & Hadd & ->). simpl in *.
    destruct (add_child_grows _ _ _ _ _ Hadd) as [Hgrows Hnonempty].
    split; [exact Hgrows|]. intros _ _ _. exact Hnonempty.
  - apply mret_Ok in Hex as [-> ->]. split; [apply heap_grows_refl|].
    intros nd Hnd' Hbare. rewrite Hnd in Hnd'. injection Hnd' as ->.
    rewrite Hbare in Htaken. injection Htaken as <-.
    apply get_legal_moves_nonempty in Hlegal.
    destruct legal as [|m legal]; [done|]. discriminate Hlen.
Qed.

Lemma select_grows gas board root w node w' :
  _select gas board root w = Ok (node, w') ->
  heap_grows (heap w) (heap w') /\
  (forall nd, heap w !! root = Some nd -> children nd = [] ->
              exists nd', heap w' !! root = Some nd' /\ children nd' <> []).
Proof.
  unfold _select. intros Hsel.
  bind_inv Hsel as legal w1 Hlegal. apply lift_Ok in Hlegal as [-> Hlegal].
  bind_inv Hsel as stop w2 Hloop. apply reading_Ok in Hloop as [-> Hloop].
  destruct (expand_grows _ _ _ _ _ Hsel) as [Hgrows Hbare].
  split; [exact Hgrows|]. intros nd Hnd Hnil.
  assert (stop = root) as ->.
  { apply get_legal_moves_nonempty in Hlegal.
    destruct gas; cbn [select_loop] in Hloop;
      rewrite (proj2 (deref_Ok _ _ _) Hnd) in Hloop; cbn [rbind] in Hloop;
      unfold is_fully_expanded in Hloop; rewrite Hnil in Hloop;
      destruct legal as [|m legal]; try done; simpl in Hloop; congruence. }
  by eapply Hbare.
Qed.

Lemma rollout_heap gas : forall simulation_board current_colour w b w',
  rollout gas simulation_board current_colour w = Ok (b, w') -> heap w' = heap w.
Proof.
  induction gas as [|gas IH]; intros sb cc w b w' Hroll; cbn [rollout] in Hroll;
    destruct (negb (has_ended sb cc) && negb (has_ended sb (opposite cc)));
    try discriminate; try (apply mret_Ok in Hroll as [_ ->]; done).
  bind_inv Hroll as legal w1 Hlegal. apply lift_Ok in Hlegal as [-> _].
  bind_inv Hroll as r w2 Hdraw. injection Hdraw as <- <-.
  bind_inv Hroll as mv w3 Hmv. apply lift_Ok in Hmv as [-> _].
  bind_inv Hroll as sb' w4 Hset. apply lift_Ok in Hset as [-> _].
  apply IH in Hroll. exact Hroll.
Qed.

Lemma simulate_heap gas colour board node w r w' :
  _simulate gas colour board node w = Ok (r, w') -> heap w' = heap w.
Proof.
  unfold _simulate. intros Hsim.
  bind_inv Hsim as nd w1 Hnd. apply reading_Ok in Hnd as [-> _].
  bind_inv Hsim as mv w2 Hmv. apply lift_Ok in Hmv as [-> _].
  bind_inv Hsim as sb w3 Hset. apply lift_Ok in Hset as [-> _].
  bind_inv Hsim as final w4 Hroll. apply rollout_heap in Hroll.
  apply mret_Ok in Hsim as [_ ->]. exact Hroll.
Qed.

(** One iteration keeps every node and leaves the root with a child. *)
Lemma iteration_grows gas colour board root w u w' :
  iteration gas colour board root w = Ok (u, w') ->
  heap_grows (heap w) (heap w') /\
  (forall nd, heap w !! root = Some nd ->
              exists nd', heap w' !! root = Some nd' /\ children nd' <> []).
Proof.
  unfold iteration. intros Hit.
  bind_inv Hit as node w1 Hsel. destruct (select_grows _ _ _ _ _ _ Hsel) as [Hg1 Hbare].
  bind_inv Hit as result w2 Hsim. apply simulate_heap in Hsim.
  apply updating_Ok in Hit as (h' & Hback & ->). simpl.
  apply rbind_Ok in Hback as (h'' & Hback & Heq).
  assert (h'' = h') as -> by congruence. clear Heq.
  apply backpropagate_grows in Hback. rewrite Hsim in Hback.
  assert (Hg : heap_grows (heap w) h') by (by eapply heap_grows_trans).
  split; [exact Hg|]. intros nd Hnd.
  destruct (children nd) as [|c cs] eqn:Hc.
  - destruct (Hbare nd Hnd Hc) as (nd1 & Hnd1 & Hne).
    destruct (Hback root nd1 Hnd1) as (nd2 & extra & Hnd2 & Hc2).
    exists nd2. split; [done|]. rewrite Hc2. intros Hnil.
    by apply app_eq_nil in Hnil as [? _].
  - destruct (Hg root nd Hnd) as (nd2 & extra & Hnd2 & Hc2).
    exists nd2. split; [done|]. rewrite Hc2, Hc. discriminate.
Qed.

Lemma run_loop_grows fuel gas colour board turn_length root start_time :
  forall iterations w n w',
  run_loop fuel gas colour board turn_length root start_time iterations w = Ok (n, w') ->
  (iterations <= n)%nat /\ heap_grows (heap w) (heap w').
Proof.
  induction fuel as [|fuel IH]; intros iterations w n w' Hloop;
    cbn [run_loop] in Hloop; bind_inv Hloop as t w1 Hnow; injection Hnow as <- <-;
    destruct (Qltb _ _); try discriminate;
    try (apply mret_Ok in Hloop as [-> ->]; split; [lia|apply heap_grows_refl]).
  bind_inv Hloop as u w2 Hit. apply iteration_grows in Hit as [Hg _].
  apply IH in Hloop as [Hn Hg']. split; [lia|].
  simpl in Hg. by eapply heap_grows_trans.
Qed.

Lemma child_moves_Ok h cs ms :
  child_moves h cs = Ok ms -> ms = moves_of h cs /\ closed_refs h cs.
Proof.
  revert ms. induction cs as [|c cs IH]; intros ms Hms.
  - injection Hms as <-. split; [done|]. constructor.
  - cbn [child_moves] in Hms. apply rbind_Ok in Hms as (cn & Hc & Hms).
    apply deref_Ok in Hc. apply rbind_Ok in Hms as (ms' & Hms' & Hms).
    injection Hms as <-. destruct (IH _ Hms') as [-> Hclosed]. split.
    + simpl. by rewrite Hc.
    + constructor; [by eexists|exact Hclosed].
Qed.

Lemma random_choice_Ok_In {A} (r : nat) (l : list A) a :
  random_choice r l = Ok a -> In a l.
Proof.
  unfold random_choice. destruct (l !! _) as [b|] eqn:Hl; [|discriminate].
  intros [= <-]. apply list_elem_of_In. by eapply list_elem_of_lookup_2.
Qed.

(** [_expand] checks membership before it adds: the children of the expanded
    node keep pairwise distinct moves. *)
Lemma expand_keeps_siblings_distinct board node w n' w' nd :
  _expand board node w = Ok (n', w') ->
  heap w !! node = Some nd ->
  distinct_sibling_moves (heap w) nd ->
  exists nd', heap w' !! node = Some nd' /\ distinct_sibling_moves (heap w') nd'.
Proof.
  unfold _expand. intros Hex Hnode Hdistinct.
  bind_inv Hex as legal w1 Hlegal. apply lift_Ok in Hlegal as [-> Hlegal].
  bind_inv Hex as nd0 w2 Hnd. apply reading_Ok in Hnd as [-> Hnd].
  apply deref_Ok in Hnd. rewrite Hnode in Hnd. injection Hnd as <-.
  bind_inv Hex as taken w3 Htaken. apply reading_Ok in Htaken as [-> Htaken].
  apply child_moves_Ok in Htaken as [-> Hclosed].
  destruct (0 <? length _)%nat.
  - bind_inv Hex as r w4 Hdraw. injection Hdraw as <- <-.
    bind_inv Hex as new_move w5 Hchoice. apply lift_Ok in Hchoice as [-> Hchoice].
    apply updating_Ok in Hex as (h' & Hadd & ->). simpl in *.
    apply random_choice_Ok_In, filter_In in Hchoice as [_ Hfresh].
    apply negb_true_iff, bool_decide_eq_false in Hfresh.
    destruct (add_child_siblings _ _ _ new_move Hnode Hclosed)
      as (c & h'' & nd' & Hadd' & _ & _ & Hnd' & _ & Hkeep).
    rewrite Hadd' in Hadd. injection Hadd as -> ->.
    exists nd'. split; [exact Hnd'|]. apply Hkeep; [exact Hdistinct|].
    intros Hin. apply Hfresh. by apply list_elem_of_In.
  - apply mret_Ok in Hex as [-> ->]. eauto.
Qed.

End Growth.

Section Budget.

Context `{Externals}.

Lemma py_max_from_raises {A K} (gt : K -> K -> bool) (key : A -> py K) l :
  forall best kbest e,
  py_max_from gt key best kbest l = Raise e -> exists x, In x l /\ key x = Raise e.
Proof.
  induction l as [|x l IH]; intros best kbest e Hmax; [discriminate|].
  cbn [py_max_from] in Hmax. destruct (key x) as [kx|e'|] eqn:Hkx; cbn [rbind] in Hmax.
  - destruct (gt kx kbest); apply IH in Hmax as (y & Hy & Hky); exists y; split;
      try done; by right.
  - injection Hmax as ->. exists x. split; [by left|done].
  - discriminate.
Qed.

Lemma most_visited_child_of_parent h root nd :
  h !! root = Some nd -> children nd <> [] ->
  most_visited_child h root <> Raise ValueError.
Proof.
  intros Hroot Hne. unfold most_visited_child.
  rewrite (proj2 (deref_Ok _ _ _) Hroot). cbn [rbind].
  destruct (children nd) as [|c cs]; [done|]. cbn [py_max].
  assert (Hkey : forall x, visits_key h x <> Raise ValueError).
  { intros x. unfold visits_key, deref. destruct (h !! x); simpl; discriminate. }
  destruct (visits_key h c) as [kc| |] eqn:Hc; cbn [rbind]; [|congruence|discriminate].
  intros Hraise. apply py_max_from_raises in Hraise as (x & _ & Hx). by eapply Hkey.
Qed.

(** When the deadline test fails at the first reading, the loop ends without
    an iteration; this is the case of every non-positive budget under a clock
    that does not run backwards. *)
Lemma run_loop_out_of_budget fuel gas colour board turn_length root start_time w :
  Qltb (time_time (ticks w) - start_time) turn_length = false ->
  run_loop fuel gas colour board turn_length root start_time 0 w
  = Ok (0%nat, mkWorld (heap w) (S (ticks w)) (draws w)).
Proof.
  intros Hout. destruct fuel; cbn [run_loop]; unfold mbind, now; by rewrite Hout.
Qed.

Lemma nonpositive_budget_is_out (t start_time turn_length : Q) :
  (start_time <= t)%Q -> (turn_length <= 0)%Q ->
  Qltb (t - start_time) turn_length = false.
Proof.
  intros Hmono Hbudget. unfold Qltb. apply negb_false_iff. apply Qle_bool_iff.
  apply Qle_trans with 0%Q; [exact Hbudget|].
  apply (Qplus_le_l _ _ start_time). ring_simplify. exact Hmono.
Qed.

Lemma run_nonpositive_budget_raises fuel gas colour board turn_length root w nd :
  (forall k, time_time k <= time_time (S k))%Q ->
  (turn_length <= 0)%Q ->
  heap w !! root = Some nd -> children nd = [] ->
  run fuel gas colour board turn_length root w = Raise ValueError.
Proof.
  intros Hmono Hbudget Hroot Hbare. unfold run.
  unfold mbind at 1. unfold now at 1. unfold mbind.
  rewrite run_loop_out_of_budget by (by apply nonpositive_budget_is_out).
  unfold reading, most_visited_child. simpl.
  rewrite (proj2 (deref_Ok _ _ _) Hroot). cbn [rbind]. by rewrite Hbare.
Qed.

End Budget.

(** C4, as stated, fails: the loop of [run] tests the deadline before its
    first iteration.  With a budget of 0 seconds the loop ends with
    [iterations = 0], and the choice of the best child over the childless
    root raises ValueError. *)
Lemma run_zero_budget_skips_loop :
  @run_loop Hex.externals 5 20 RED (empty_board 2) 0%Q 0%nat 0%Q 0%nat
            SearchExample.bare_root_started
  = Ok (0%nat, mkWorld (heap SearchExample.bare_root_started) 2 0) /\
  @run Hex.externals 5 20 RED (empty_board 2) 0%Q 0%nat SearchExample.bare_root
  = Raise ValueError.
Proof. split; vm_compute; reflexivity. Qed.

(** C4 (amended): when the budget exceeds the time elapsed at the first
    deadline test, a loop of [run] that ends has executed at least one full
    iteration, so the best child is chosen over a root with at least one
    child and the choice does not fail for want of children. *)
Theorem run_loop_iterates_within_budget `{Externals}
  fuel gas colour board turn_length root start_time w nd n w' :
  heap w !! root = Some nd ->
  Qltb (time_time (ticks w) - start_time) turn_length = true ->
  run_loop fuel gas colour board turn_length root start_time 0 w = Ok (n, w') ->
  (1 <= n)%nat /\
  (exists nd', heap w' !! root = Some nd' /\ children nd' <> []) /\
  most_visited_child (heap w') root <> Raise ValueError.
Proof.
  intros Hroot Hin Hloop.
  assert (Hgoal : (1 <= n)%nat /\
            exists nd', heap w' !! root = Some nd' /\ children nd' <> []).
  { destruct fuel as [|fuel]; cbn [run_loop] in Hloop;
      bind_inv Hloop as t w1 Hnow; injection Hnow as <- <-; rewrite Hin in Hloop;
      [discriminate|].
    bind_inv Hloop as u w2 Hit.
    destruct (iteration_grows _ _ _ _ _ _ _ Hit) as [_ Hchild].
    destruct (Hchild nd Hroot) as (nd1 & Hnd1 & Hne1).
    apply run_loop_grows in Hloop as [Hn Hg]. split; [exact Hn|].
    destruct (Hg root nd1 Hnd1) as (nd2 & extra & Hnd2 & Hc2).
    exists nd2. split; [done|]. rewrite Hc2. intros Hnil.
    by apply app_eq_nil in Hnil as [? _]. }
  destruct Hgoal as [Hn (nd' & Hnd' & Hne)]. split; [exact Hn|]. split; [eauto|].
  by eapply most_visited_child_of_parent.
Qed.

Lemma run_loop_iterates_within_budget_witness :
  match SearchExample.one_second_loop with
  | Ok (n, w') =>
      (1 <= n)%nat /\
      (exists nd', heap w' !! 0%nat = Some nd' /\ children nd' <> []) /\
      most_visited_child (heap w') 0%nat <> Raise ValueError
  | _ => False
  end.
Proof.
  destruct SearchExample.one_second_loop as [[n w']| |] eqn:Hloop;
    [|vm_compute in Hloop; discriminate Hloop..].
  apply (@run_loop_iterates_within_budget Hex.externals 5 20 RED (empty_board 2)
           1%Q 0%nat 0%Q SearchExample.bare_root_started
           (TreeNode_init None None) n w').
  - reflexivity.
  - reflexivity.
  - exact Hloop.
Defined.

(** The one-second search on the empty 2 x 2 board makes one iteration. *)
Example one_second_loop_iterations :
  fst <$> (match SearchExample.one_second_loop with
           | Ok r => Some r
           | _ => None
           end) = Some 1%nat.
Proof. vm_compute. reflexivity. Qed.

(** ** The agent *)

(** C10: a call of [make_move] that returns has written the board it was
    given: when [opp_move] is not None, the opponent's colour at the cell of
    [opp_move] (through [set_tile_colour]), and then, in every case, the
    agent's own colour at the cell of the move it returns, which is the move
    of the node the agent retains. *)
Theorem make_move_writes_board `{Externals}
  fuel gas colour turn_length tree turn board opp_move w mv board' tree' w' :
  make_move fuel gas colour turn_length tree turn board opp_move w
  = Ok (mv, board', tree', w') ->
  exists board1,
    match opp_move with
    | Some om =>
        set_tile_colour board (move_x om) (move_y om) (opposite colour) = Ok board1
    | None => board1 = board
    end /\
    set_tile_colour board1 (move_x mv) (move_y mv) colour = Ok board' /\
    move <$> heap w' !! tree' = Some (Some mv).
Proof.
  unfold make_move. intros Hcall.
  bind_inv Hcall as tree1 w1 Htree1. clear Htree1.
  bind_inv Hcall as tb w2 Hopp. destruct tb as [tree2 board1].
  bind_inv Hcall as tree3 w3 Hrun.
  bind_inv Hcall as nd w4 Hnd. apply reading_Ok in Hnd as [-> Hnd].
  apply deref_Ok in Hnd.
  bind_inv Hcall as moves w5 Hmoves. apply reading_Ok in Hmoves as [-> _].
  bind_inv Hcall as mv' w6 Hmv. apply lift_Ok in Hmv as [-> Hmv].
  bind_inv Hcall as board2 w7 Hset. apply lift_Ok in Hset as [-> Hset].
  apply mret_Ok in Hcall as [Hres ->]. injection Hres as <- <- <-.
  exists board1. split; [|split].
  - destruct opp_move as [om|].
    + bind_inv Hopp as t wa Hupd. bind_inv Hopp as b wb Hwrite.
      apply lift_Ok in Hwrite as [-> Hwrite].
      apply mret_Ok in Hopp as [Hres _]. by injection Hres as _ <-.
    + apply mret_Ok in Hopp as [Hres _]. by injection Hres as _ <-.
  - exact Hset.
  - rewrite Hnd. simpl. unfold move_of in Hmv.
    destruct (move nd); [by injection Hmv as ->|discriminate].
Qed.

Lemma make_move_writes_board_witness :
  match SearchExample.first_call with
  | Ok (mv, board', tree', w') =>
      exists board1,
        Hex.set_tile (empty_board 2) 0 0 BLUE = Ok board1 /\
        Hex.set_tile board1 (move_x mv) (move_y mv) RED = Ok board' /\
        move <$> heap w' !! tree' = Some (Some mv)
  | _ => False
  end.
Proof.
  destruct SearchExample.first_call as [[[[mv board'] tree'] w']| |] eqn:Hcall;
    [|vm_compute in Hcall; discriminate Hcall..].
  apply (@make_move_writes_board Hex.externals 5 20 RED 1%Q None 1 (empty_board 2)
           (Some (mkMove 0 0)) SearchExample.nothing mv board' tree' w' Hcall).
Defined.

(** The first call on the 2 x 2 board: BLUE is written at (0,0), the search
    expands (0,1), and RED is written there. *)
Example first_call_board :
  (fun r => (r.1.1.1, r.1.1.2)) <$>
    (match SearchExample.first_call with Ok r => Some r | _ => None end)
  = Some (mkMove 0 1,
          mkBoard 2 [[mkTile 0 0 (Some BLUE); mkTile 0 1 (Some RED)];
                     [mkTile 1 0 None; mkTile 1 1 None]]).
Proof. vm_compute. reflexivity. Qed.

(** ** Turn time budgeter, in exact arithmetic *)

Section ExactBudget.

Local Open Scope Q_scope.

Lemma sum_Q_from (l : list Q) (a : Q) :
  fold_left (fun acc x => Qred (acc + x)) l a == a + sum_Q l.
Proof.
  revert a. induction l as [|x l IH]; intros a.
  - unfold sum_Q. simpl. ring.
  - unfold sum_Q. simpl. rewrite (IH (Qred (a + x))), (IH (Qred (0 + x))).
    rewrite !Qred_correct. ring.
Qed.

Lemma sum_Q_cons (x : Q) (l : list Q) : sum_Q (x :: l) == x + sum_Q l.
Proof.
  unfold sum_Q at 1. simpl. rewrite sum_Q_from, Qred_correct. ring.
Qed.

Lemma sum_Q_positive (l : list Q) :
  l <> [] -> Forall (fun x => 0 < x) l -> 0 < sum_Q l.
Proof.
  induction l as [|x l IH]; intros Hne Hpos; [done|].
  apply Forall_cons in Hpos as [Hx Hl]. rewrite sum_Q_cons.
  destruct l as [|y l].
  - unfold sum_Q. simpl. by rewrite Qplus_0_r.
  - apply Qlt_trans with (x + 0); [by rewrite Qplus_0_r|].
    apply Qplus_lt_r. by apply IH.
Qed.

Lemma sum_Q_share (l : list Q) (W T : Q) :
  sum_Q (map (fun w => w / W * T) l) == sum_Q l / W * T.
Proof.
  induction l as [|x l IH].
  - unfold sum_Q, Qdiv. simpl. ring.
  - cbn [map]. rewrite !sum_Q_cons, IH. unfold Qdiv. ring.
Qed.

Lemma decay_rate_power_positive (i : nat) : 0 < decay_rate ^ Z.of_nat i.
Proof. by apply Qpower_0_lt. Qed.

Lemma decay_rate_power_succ (i : nat) :
  decay_rate ^ Z.of_nat (S i) == decay_rate ^ Z.of_nat i * decay_rate.
Proof.
  rewrite Nat2Z.inj_succ. unfold Z.succ. rewrite Qpower_plus by done.
  by rewrite Qpower_1_r.
Qed.

Lemma turn_weights_positive n : Forall (fun x => 0 < x) (turn_weights n).
Proof.
  unfold turn_weights. apply Forall_forall. intros x Hx.
  apply list_elem_of_In, in_map_iff in Hx as (i & <- & _).
  apply decay_rate_power_positive.
Qed.

Lemma py_getitem_nat {A} (l : list A) (i : nat) a :
  l !! i = Some a -> py_getitem l (Z.of_nat i) = Ok a.
Proof.
  intros Hl. pose proof (lookup_lt_Some _ _ _ Hl) as Hlt. unfold py_getitem.
  destruct (Z.ltb_spec (Z.of_nat i) 0) as [?|_]; [lia|].
  destruct (Z.leb_spec 0 (Z.of_nat i)) as [_|?]; [|lia].
  destruct (Z.ltb_spec (Z.of_nat i) (Z.of_nat (length l))) as [_|?]; [|lia].
  cbn [andb]. by rewrite Nat2Z.id, Hl.
Qed.

Lemma allowed_time_exact_value (i n : nat) (T : Q) :
  (i < n)%nat ->
  allowed_time_exact (Z.of_nat (S i)) n T
  = Ok (decay_rate ^ Z.of_nat i / sum_Q (turn_weights n) * T).
Proof.
  intros Hi. unfold allowed_time_exact.
  replace (Z.of_nat (S i) - 1)%Z with (Z.of_nat i) by lia.
  rewrite (py_getitem_nat _ i (decay_rate ^ Z.of_nat i)); [done|].
  unfold turn_weights. rewrite list_lookup_fmap, lookup_seq_lt by done. done.
Qed.

Lemma py_map_Ok {A B} (f : A -> py B) (g : A -> B) (l : list A) :
  (forall x, In x l -> f x = Ok (g x)) -> AlphaZero.py_map f l = Ok (map g l).
Proof.
  induction l as [|x l IH]; intros Hf; [done|].
  cbn [AlphaZero.py_map]. rewrite (Hf x) by (by left). cbn [rbind].
  rewrite IH by (intros y Hy; apply Hf; by right). done.
Qed.

Lemma allotments_value (n : nat) (T : Q) :
  allotments n T = Ok (map (fun w => w / sum_Q (turn_weights n) * T) (turn_weights n)).
Proof.
  unfold allotments.
  rewrite (py_map_Ok _ (fun k => decay_rate ^ Z.of_nat (pred k)
                                 / sum_Q (turn_weights n) * T)).
  - f_equal. unfold turn_weights at 3. rewrite <- seq_shift, !map_map. done.
  - intros k Hk. apply in_seq in Hk. destruct k as [|i]; [lia|].
    apply allowed_time_exact_value. lia.
Qed.

Lemma shares_strictly_decreasing (W T : Q) (n s : nat) :
  0 < W -> 0 < T ->
  strictly_decreasing
    (map (fun w => w / W * T)
         (map (fun i => decay_rate ^ Z.of_nat i) (seq s n))) = true.
Proof.
  intros HW HT. revert s. induction n as [|n IH]; intros s; [done|].
  destruct n as [|n]; [done|].
  specialize (IH (S s)). cbn [seq map] in IH |- *. cbn [strictly_decreasing].
  apply andb_true_intro. split; [|exact IH].
  unfold Qgtb. apply negb_true_iff. apply not_true_is_false. rewrite Qle_bool_iff.
  apply Qlt_not_le. unfold Qdiv.
  apply Qmult_lt_compat_r; [exact HT|].
  apply Qmult_lt_compat_r; [by apply Qinv_lt_0_compat|].
  rewrite decay_rate_power_succ.
  rewrite <- (Qmult_1_r (decay_rate ^ Z.of_nat s)) at 2.
  apply Qmult_lt_l; [apply decay_rate_power_positive|done].
Qed.

(** Over the rationals, with 0.97 read as 97/100, the allotments of the turns
    1, ..., [n] decrease strictly and add up to the total time.  This is the
    budgeter without the roundings of the floating-point computation of the
    source, about which it says nothing. *)
Lemma allowed_time_exact_budget (n : nat) (T : Q) :
  (0 < n)%nat -> 0 < T ->
  exists l, allotments n T = Ok l /\ length l = n /\
            strictly_decreasing l = true /\ sum_Q l == T.
Proof.
  intros Hn HT.
  assert (HW : 0 < sum_Q (turn_weights n)).
  { apply sum_Q_positive; [|apply turn_weights_positive].
    unfold turn_weights. destruct n; [lia|]. discriminate. }
  eexists. split; [apply allotments_value|]. split; [|split].
  - unfold turn_weights. by rewrite !length_map, length_seq.
  - by apply shares_strictly_decreasing.
  - rewrite sum_Q_share. field. intros Hz. rewrite Hz in HW. by apply Qlt_irrefl in HW.
Qed.

Example allowed_time_exact_budget_121 :
  exists l, allotments 121 300 = Ok l /\ length l = 121%nat /\
            strictly_decreasing l = true /\ sum_Q l == 300.
Proof. apply allowed_time_exact_budget; [lia|done]. Qed.

End ExactBudget.

(** * Further properties of the code *)

(** ** The board helpers *)

Section BoardHelpers.

Implicit Types (board : Board) (colour : Colour) (mv : Move).

Lemma py_getitem_Ok_lookup {A} (l : list A) (i : Z) a :
  0 <= i -> py_getitem l i = Ok a -> l !! Z.to_nat i = Some a.
Proof.
  intros Hi. unfold py_getitem.
  destruct (Z.ltb_spec i 0) as [?|_]; [lia|].
  destruct (_ && _); [|discriminate].
  destruct (l !! Z.to_nat i) as [b|]; [|discriminate]. by intros [= <-].
Qed.

Lemma is_within_bounds_spec board x y :
  is_within_bounds board x y = true <->
  0 <= x < board_size board /\ 0 <= y < board_size board.
Proof.
  unfold is_within_bounds. rewrite !andb_true_iff, !Z.leb_le, !Z.ltb_lt. tauto.
Qed.

Lemma tile_at_in_board board x y t :
  tile_at board x y = Ok t -> In t (concat (board_tiles board)).
Proof.
  unfold tile_at. intros Ht. apply rbind_Ok in Ht as (row & Hrow & Ht).
  apply py_getitem_elem in Hrow, Ht. apply in_concat. eauto.
Qed.

Lemma tile_at_coherent board x y t :
  coherent_board board -> 0 <= x -> 0 <= y ->
  tile_at board x y = Ok t -> tile_x t = x /\ tile_y t = y.
Proof.
  intros Hco Hx Hy Ht. unfold tile_at in Ht.
  apply rbind_Ok in Ht as (row & Hrow & Ht).
  apply py_getitem_Ok_lookup in Hrow, Ht; try done.
  destruct (Hco _ _ _ _ Hrow Ht) as [-> ->]. lia.
Qed.

(** The tiles [neighbours_at] returns, one per offset that stays on the
    board, in the order of the offsets. *)
Lemma neighbours_at_tiles board x y offsets ts :
  neighbours_at board x y offsets = Ok ts ->
  Forall2 (fun o t => tile_at board (x + o.1) (y + o.2) = Ok t)
          (List.filter (fun o => is_within_bounds board (x + o.1) (y + o.2)) offsets)
          ts.
Proof.
  revert ts. induction offsets as [|[xo yo] rest IH]; intros ts Hts.
  - injection Hts as <-. constructor.
  - cbn [neighbours_at] in Hts. cbn [List.filter fst snd].
    destruct (is_within_bounds board (x + xo) (y + yo)) eqn:Hin.
    + apply rbind_Ok in Hts as (t & Ht & Hts).
      apply rbind_Ok in Hts as (ts' & Hts' & Hts). injection Hts as <-.
      constructor; [exact Ht|]. by apply IH.
    + by apply IH.
Qed.

(** X1: on a well-formed board [get_neighbours] never raises; it returns one
    tile of the board for every offset that stays on the board, hence at most
    six tiles, and exactly six around a cell that is not on the border. *)
Theorem get_neighbours_on_board board x y :
  well_formed_board board ->
  exists ts,
    get_neighbours board x y = Ok ts /\
    length ts = length (offsets_on_board board x y) /\
    (length ts <= 6)%nat /\
    (1 <= x < board_size board - 1 -> 1 <= y < board_size board - 1 ->
     length ts = 6%nat) /\
    (forall t, In t ts -> In t (concat (board_tiles board))).
Proof.
  intros Hwf. unfold get_neighbours.
  destruct (neighbours_at_Ok board x y RELATIVE_NEIGHBOURS Hwf) as [ts Hts].
  exists ts. split; [exact Hts|].
  pose proof (neighbours_at_tiles _ _ _ _ _ Hts) as Hall.
  assert (Hlen : length ts = length (offsets_on_board board x y)).
  { symmetry. by eapply Forall2_length. }
  split; [exact Hlen|]. split; [|split].
  - rewrite Hlen. unfold offsets_on_board.
    etransitivity; [apply filter_length_le|]. simpl. lia.
  - intros Hx Hy. rewrite Hlen. unfold offsets_on_board, RELATIVE_NEIGHBOURS.
    cbn [List.filter fst snd].
    rewrite !(proj2 (is_within_bounds_spec _ _ _)) by lia. reflexivity.
  - intros t Ht. apply list_elem_of_In, list_elem_of_lookup in Ht as [k Hk].
    destruct (Forall2_lookup_r _ _ _ _ _ Hall Hk) as (o & _ & Hto).
    by eapply tile_at_in_board.
Qed.

Lemma get_neighbours_on_board_witness :
  exists ts,
    get_neighbours BoardExample.board 1 1 = Ok ts /\
    length ts = length (offsets_on_board BoardExample.board 1 1) /\
    (length ts <= 6)%nat /\
    (1 <= 1 < board_size BoardExample.board - 1 ->
     1 <= 1 < board_size BoardExample.board - 1 -> length ts = 6%nat) /\
    (forall t, In t ts -> In t (concat (board_tiles BoardExample.board))).
Proof.
  apply (get_neighbours_on_board BoardExample.board 1 1).
  split; [reflexivity|]. repeat constructor.
Defined.

Lemma legal_moves_of_empty_tiles board :
  (_get_legal_moves board = Raise ValueError <->
   forall t, In t (concat (board_tiles board)) -> tile_colour t <> None) /\
  (forall l, _get_legal_moves board = Ok l ->
     l <> [] /\
     l = map move_to (List.filter is_available (concat (board_tiles board))) /\
     forall m, In m l <->
       exists t, In t (concat (board_tiles board)) /\ tile_colour t = None /\
                 m = move_to t).
Proof.
  unfold _get_legal_moves.
  set (tiles := concat (board_tiles board)).
  assert (Havail : forall t, In t (List.filter is_available tiles) <->
                             In t tiles /\ tile_colour t = None).
  { intros t. rewrite filter_In. unfold is_available.
    destruct (tile_colour t); split; intros [? ?]; done. }
  split.
  - destruct (List.filter is_available tiles) as [|t ts] eqn:Hf; simpl.
    + split; [|done]. intros _ t Ht Hnone.
      assert (Hin : In t []) by (apply Havail; done). destruct Hin.
    + split; [discriminate|]. intros Hfull. exfalso.
      destruct (proj1 (Havail t) (or_introl eq_refl)) as [Hin Hnone].
      by apply (Hfull t).
  - intros l Hl.
    destruct (List.filter is_available tiles) as [|t ts] eqn:Hf;
      cbn [length Nat.eqb] in Hl; [discriminate|].
    injection Hl as <-. split; [discriminate|]. split; [reflexivity|].
    intros m. change (In m (map move_to (t :: ts)) <->
                      exists t', In t' tiles /\ tile_colour t' = None /\ m = move_to t').
    rewrite in_map_iff. split.
    + intros (t' & <- & Ht'). apply Havail in Ht' as [? ?]. eauto.
    + intros (t' & Hin & Hnone & ->). exists t'. split; [done|]. by apply Havail.
Qed.

(** X2: [_get_legal_moves] raises ValueError exactly when no tile of the
    board is empty; otherwise it returns, in the order of the tiles, the
    coordinates carried by the empty tiles, a list that is never empty. *)
Theorem get_legal_moves_available board :
  (_get_legal_moves board = Raise ValueError <->
   forall t, In t (concat (board_tiles board)) -> tile_colour t <> None) /\
  (forall l, _get_legal_moves board = Ok l ->
     l <> [] /\
     l = map move_to (List.filter is_available (concat (board_tiles board))) /\
     forall m, In m l <->
       exists t, In t (concat (board_tiles board)) /\ tile_colour t = None /\
                 m = move_to t).
Proof. apply legal_moves_of_empty_tiles. Qed.

Lemma coords_NoDup_rows (rows : list (list Tile)) (s : nat) :
  (forall i j row t, rows !! i = Some row -> row !! j = Some t ->
                     tile_x t = Z.of_nat (s + i) /\ tile_y t = Z.of_nat j) ->
  NoDup (map move_to (concat rows)).
Proof.
  revert s. induction rows as [|row rows IH]; intros s Hco; [constructor|].
  cbn [concat]. rewrite map_app. apply NoDup_app. repeat split.
  - apply NoDup_alt. intros i j m Hi Hj.
    rewrite list_lookup_fmap in Hi, Hj.
    apply fmap_Some in Hi as (ti & Hti & ->).
    apply fmap_Some in Hj as (tj & Htj & Heq).
    destruct (Hco 0%nat i row ti eq_refl Hti) as [_ Hyi].
    destruct (Hco 0%nat j row tj eq_refl Htj) as [_ Hyj].
    unfold move_to in Heq. injection Heq as _ Hy. lia.
  - intros m Hm Hm'.
    apply list_elem_of_In, in_map_iff in Hm as (t & <- & Ht).
    apply list_elem_of_In, in_map_iff in Hm' as (t' & Heq & Ht').
    apply list_elem_of_In, list_elem_of_lookup in Ht as [j Hj].
    apply in_concat in Ht' as (row' & Hrow' & Ht').
    apply list_elem_of_In, list_elem_of_lookup in Hrow' as [i Hi].
    apply list_elem_of_In, list_elem_of_lookup in Ht' as [j' Hj'].
    destruct (Hco 0%nat j row t eq_refl Hj) as [Hx _].
    destruct (Hco (S i) j' row' t' Hi Hj') as [Hx' _].
    unfold move_to in Heq. injection Heq as Hxx _. lia.
  - apply (IH (S s)). intros i j row' t Hi Hj.
    destruct (Hco (S i) j row' t Hi Hj) as [Hx Hy]. split; [|done].
    rewrite Hx. f_equal. lia.
Qed.

(** X3: on a coherent board the legal moves are pairwise distinct, and on a
    board that is also well formed each of them lies within the bounds. *)
Theorem get_legal_moves_distinct board l :
  coherent_board board ->
  _get_legal_moves board = Ok l ->
  List.NoDup l /\
  (well_formed_board board ->
   forall m, In m l -> is_within_bounds board (move_x m) (move_y m) = true).
Proof.
  intros Hco Hl.
  destruct (legal_moves_of_empty_tiles board) as [_ Hok].
  destruct (Hok l Hl) as (_ & -> & Hchar). split.
  - apply NoDup_ListNoDup.
    assert (Hnd : NoDup (map move_to (concat (board_tiles board)))).
    { apply (coords_NoDup_rows _ 0). intros i j row t Hi Hj.
      by apply (Hco i j row t). }
    revert Hnd. generalize (concat (board_tiles board)). intros tiles.
    induction tiles as [|t tiles IH]; intros Hnd; [constructor|].
    cbn [map] in Hnd. apply NoDup_cons in Hnd as [Hnotin Hnd].
    cbn [List.filter]. destruct (is_available t); [|by apply IH].
    cbn [map]. apply NoDup_cons. split; [|by apply IH].
    intros Hin. apply Hnotin.
    apply list_elem_of_In, in_map_iff in Hin as (t' & Heq & Ht').
    apply filter_In in Ht' as [Ht' _].
    apply list_elem_of_In, in_map_iff. eauto.
  - intros [Hrows Hcols] m Hm. apply Hchar in Hm as (t & Ht & _ & ->).
    apply in_concat in Ht as (row & Hrow & Ht).
    apply list_elem_of_In, list_elem_of_lookup in Hrow as [i Hi].
    apply list_elem_of_In, list_elem_of_lookup in Ht as [j Hj].
    destruct (Hco i j row t Hi Hj) as [Hx Hy].
    pose proof (lookup_lt_Some _ _ _ Hi) as Hilt.
    pose proof (lookup_lt_Some _ _ _ Hj) as Hjlt.
    rewrite Forall_forall in Hcols.
    assert (Hlen : Z.of_nat (length row) = board_size board).
    { apply Hcols. by eapply list_elem_of_lookup_2. }
    apply is_within_bounds_spec. simpl. lia.
Qed.

Lemma BoardExample_coherent : coherent_board BoardExample.board.
Proof.
  intros i j row t Hi Hj.
  destruct i as [|[|[|i]]]; simpl in Hi; try discriminate; injection Hi as <-;
    destruct j as [|[|[|j]]]; simpl in Hj; try discriminate; injection Hj as <-;
    split; reflexivity.
Qed.

Lemma get_legal_moves_distinct_witness :
  List.NoDup [mkMove 0 2; mkMove 1 0; mkMove 1 1; mkMove 2 1] /\
  (well_formed_board BoardExample.board ->
   forall m, In m [mkMove 0 2; mkMove 1 0; mkMove 1 1; mkMove 2 1] ->
             is_within_bounds BoardExample.board (move_x m) (move_y m) = true).
Proof.
  apply (get_legal_moves_distinct BoardExample.board).
  - exact BoardExample_coherent.
  - reflexivity.
Defined.

Lemma combinations2_In {A} (l : list A) a b :
  In (a, b) (combinations2 l) -> In a l /\ In b l.
Proof.
  induction l as [|x l IH]; [intros []|]. cbn [combinations2].
  intros Hin. apply in_app_or in Hin as [Hin|Hin].
  - apply in_map_iff in Hin as (y & [= <- <-] & Hy). split; [by left|by right].
  - destruct (IH Hin). split; by right.
Qed.

Lemma combinations2_ends {A} (a b : A) (mid : list A) :
  In (a, b) (combinations2 (a :: mid ++ [b])).
Proof.
  cbn [combinations2]. apply in_or_app. left. apply in_map.
  apply in_or_app. right. by left.
Qed.

Lemma neighbour_offset board x y ts n :
  get_neighbours board x y = Ok ts -> In n ts ->
  exists o, In o RELATIVE_NEIGHBOURS /\
            is_within_bounds board (x + o.1) (y + o.2) = true /\
            tile_at board (x + o.1) (y + o.2) = Ok n.
Proof.
  intros Hts Hn. apply neighbours_at_tiles in Hts.
  apply list_elem_of_In, list_elem_of_lookup in Hn as [k Hk].
  destruct (Forall2_lookup_r _ _ _ _ _ Hts Hk) as (o & Ho & Hto).
  apply list_elem_of_lookup_2, list_elem_of_In, filter_In in Ho as [Ho Hin].
  eauto.
Qed.

(** Among the neighbours of a cell, the only pair that passes [is_bridge] is
    the one at the offsets (-1,-1) and (1,1). *)
Lemma bridge_hit_iff board colour mv ts :
  coherent_board board ->
  get_neighbours board (move_x mv) (move_y mv) = Ok ts ->
  (exists n1 n2, In (n1, n2) (combinations2 ts) /\
                 has_colour n1 colour = true /\ has_colour n2 colour = true /\
                 is_bridge n1 n2 mv = true) <->
  owned_by board colour (move_x mv - 1) (move_y mv - 1) /\
  owned_by board colour (move_x mv + 1) (move_y mv + 1).
Proof.
  intros Hco Hts. destruct mv as [x y]. cbn [move_x move_y] in *.
  replace (x - 1) with (x + -1) by lia. replace (y - 1) with (y + -1) by lia.
  split.
  - intros (n1 & n2 & Hpair & Hc1 & Hc2 & Hbridge).
    apply combinations2_In in Hpair as [Hn1 Hn2].
    destruct (neighbour_offset _ _ _ _ _ Hts Hn1) as ([a1 b1] & Ho1 & Hin1 & Ht1).
    destruct (neighbour_offset _ _ _ _ _ Hts Hn2) as ([a2 b2] & Ho2 & Hin2 & Ht2).
    cbn [fst snd] in *.
    pose proof (proj1 (is_within_bounds_spec _ _ _) Hin1) as Hb1.
    pose proof (proj1 (is_within_bounds_spec _ _ _) Hin2) as Hb2.
    destruct (tile_at_coherent board (x + a1) (y + b1) n1 Hco) as [Hx1 Hy1];
      [lia|lia|exact Ht1|].
    destruct (tile_at_coherent board (x + a2) (y + b2) n2 Hco) as [Hx2 Hy2];
      [lia|lia|exact Ht2|].
    unfold is_bridge in Hbridge. rewrite Hx1, Hy1, Hx2, Hy2 in Hbridge.
    apply andb_prop in Hbridge as [Habs _]. apply andb_prop in Habs as [Hdx Hdy].
    apply Z.eqb_eq in Hdx, Hdy.
    apply bool_decide_eq_true in Hc1, Hc2.
    unfold RELATIVE_NEIGHBOURS in Ho1, Ho2. simpl in Ho1, Ho2.
    assert (Hcases : (a1 = -1 /\ b1 = -1 /\ a2 = 1 /\ b2 = 1) \/
                     (a1 = 1 /\ b1 = 1 /\ a2 = -1 /\ b2 = -1)).
    { destruct Ho1 as [E1|[E1|[E1|[E1|[E1|[E1|[]]]]]]]; injection E1 as <- <-;
        destruct Ho2 as [E2|[E2|[E2|[E2|[E2|[E2|[]]]]]]]; injection E2 as <- <-;
        lia. }
    unfold owned_by.
    destruct Hcases as [(-> & -> & -> & ->)|(-> & -> & -> & ->)]; eauto 10.
  - intros [(Hin1 & t1 & Ht1 & Hc1) (Hin2 & t2 & Ht2 & Hc2)].
    pose proof (neighbours_at_tiles _ _ _ _ _ Hts) as Hall.
    change RELATIVE_NEIGHBOURS
      with ([(-1, -1)] ++ [(-1, 0); (0, -1); (0, 1); (1, 0)] ++ [(1, 1)]) in Hall.
    rewrite !List.filter_app in Hall. cbn [List.filter fst snd] in Hall.
    rewrite Hin1, Hin2 in Hall.
    apply Forall2_app_inv_l in Hall as (k1 & rest & Hk1 & Hrest & ->).
    apply Forall2_app_inv_l in Hrest as (mid & k2 & _ & Hk2 & ->).
    apply Forall2_cons_inv_l in Hk1 as (t1' & ? & Ht1' & Hnil1 & ->).
    apply Forall2_nil_inv_l in Hnil1 as ->.
    apply Forall2_cons_inv_l in Hk2 as (t2' & ? & Ht2' & Hnil2 & ->).
    apply Forall2_nil_inv_l in Hnil2 as ->.
    cbn [fst snd] in Ht1', Ht2'.
    assert (t1' = t1) as -> by congruence. assert (t2' = t2) as -> by congruence.
    exists t1, t2. split; [apply combinations2_ends|].
    split; [by apply bool_decide_eq_true|]. split; [by apply bool_decide_eq_true|].
    pose proof (proj1 (is_within_bounds_spec _ _ _) Hin1) as Hb1.
    pose proof (proj1 (is_within_bounds_spec _ _ _) Hin2) as Hb2.
    destruct (tile_at_coherent board (x + -1) (y + -1) t1 Hco) as [Hx1 Hy1];
      [lia|lia|exact Ht1|].
    destruct (tile_at_coherent board (x + 1) (y + 1) t2 Hco) as [Hx2 Hy2];
      [lia|lia|exact Ht2|].
    unfold is_bridge. rewrite Hx1, Hy1, Hx2, Hy2. cbn [move_x move_y].
    replace (x + -1 + (x + 1)) with (x * 2) by lia.
    replace (y + -1 + (y + 1)) with (y * 2) by lia.
    rewrite !Z.div_mul by done.
    replace (x + -1 - (x + 1)) with (-2) by lia.
    replace (y + -1 - (y + 1)) with (-2) by lia.
    by rewrite !Z.eqb_refl.
Qed.

(** X4: on a coherent board the bridge loop of [savebridge] lists a legal
    move exactly when the two cells at the offsets (-1,-1) and (1,1) from it
    are both on the board and of the player's colour; no other pair of
    neighbours, in particular not the pair across the other diagonal, makes a
    move a bridge move. *)
Theorem bridge_moves_diagonal board colour legal_moves l mv :
  coherent_board board ->
  bridge_moves board colour legal_moves = Ok l ->
  In mv l <->
    In mv legal_moves /\
    owned_by board colour (move_x mv - 1) (move_y mv - 1) /\
    owned_by board colour (move_x mv + 1) (move_y mv + 1).
Proof.
  intros Hco. revert l. induction legal_moves as [|m rest IH]; intros l Hl.
  - injection Hl as <-. simpl. tauto.
  - cbn [bridge_moves] in Hl. apply rbind_Ok in Hl as (ts & Hts & Hl).
    apply rbind_Ok in Hl as (more & Hmore & Hl). injection Hl as <-.
    specialize (IH more Hmore).
    pose proof (bridge_hit_iff board colour m ts Hco Hts) as Hhit.
    rewrite in_app_iff, in_map_iff, IH. cbn [In]. split.
    + intros [(p & <- & Hp)|(Hin & Ho)]; [|tauto].
      split; [by left|]. apply Hhit. destruct p as [n1 n2].
      apply filter_In in Hp as [Hp Hpred].
      apply andb_prop in Hpred as [Hcs Hb]. apply andb_prop in Hcs as [Hc1 Hc2].
      eauto 10.
    + intros [[<-|Hin] Ho]; [|tauto]. left.
      apply Hhit in Ho as (n1 & n2 & Hp & Hc1 & Hc2 & Hb).
      exists (n1, n2). split; [done|]. apply filter_In. split; [done|].
      by rewrite Hc1, Hc2, Hb.
Qed.

Lemma bridge_moves_diagonal_witness :
  In (mkMove 1 1) [mkMove 1 1] <->
    In (mkMove 1 1) [mkMove 0 2; mkMove 1 0; mkMove 1 1; mkMove 2 1] /\
    owned_by BoardExample.board RED (1 - 1) (1 - 1) /\
    owned_by BoardExample.board RED (1 + 1) (1 + 1).
Proof.
  apply (bridge_moves_diagonal BoardExample.board RED
           [mkMove 0 2; mkMove 1 0; mkMove 1 1; mkMove 2 1] [mkMove 1 1]
           (mkMove 1 1)).
  - exact BoardExample_coherent.
  - reflexivity.
Defined.

End BoardHelpers.

(** ** Selection and expansion *)

(** [max] with a key in an ordered type: the first element with a maximal
    key.  The order is given by the strict comparison [gt] of the code. *)
Section PyMaxOrdered.

Context {A K : Type} (gt : K -> K -> bool) (key : A -> py K).
Context (le lt : K -> K -> Prop).
Hypothesis gt_true : forall x y, gt x y = true -> lt y x.
Hypothesis gt_false : forall x y, gt x y = false -> le x y.
Hypothesis le_refl : forall x, le x x.
Hypothesis le_trans : forall x y z, le x y -> le y z -> le x z.
Hypothesis lt_le : forall x y, lt x y -> le x y.
Hypothesis le_lt_trans : forall x y z, le x y -> lt y z -> lt x z.
Hypothesis lt_le_trans : forall x y z, lt x y -> le y z -> lt x z.

Lemma py_max_from_ordered best kbest l b :
  py_max_from gt key best kbest l = Ok b ->
  exists kb,
    le kbest kb /\
    (forall x, In x l -> exists k, key x = Ok k /\ le k kb) /\
    ((b = best /\ kb = kbest) \/
     (exists pre post, l = pre ++ b :: post /\ key b = Ok kb /\ lt kbest kb /\
                       forall x, In x pre -> exists k, key x = Ok k /\ lt k kb)).
Proof.
  revert best kbest. induction l as [|x l IH]; intros best kbest Hmax.
  - injection Hmax as <-. exists kbest. split; [done|]. split; [intros ? []|]. by left.
  - cbn [py_max_from] in Hmax. apply rbind_Ok in Hmax as (kx & Hkx & Hmax).
    destruct (gt kx kbest) eqn:Hgt.
    + apply gt_true in Hgt.
      destruct (IH _ _ Hmax) as (kb & Hkb & Hall & Hcases).
      exists kb. split; [eauto|]. split.
      { intros y [<-|Hy]; [eauto|by apply Hall]. }
      right. destruct Hcases as [[-> ->]|(pre & post & -> & Hb & Hlt & Hpre)].
      * exists [], l. split; [done|]. split; [done|]. split; [done|]. intros ? [].
      * exists (x :: pre), post. split; [done|]. split; [done|]. split; [eauto|].
        intros y [<-|Hy]; [eauto|by apply Hpre].
    + apply gt_false in Hgt.
      destruct (IH _ _ Hmax) as (kb & Hkb & Hall & Hcases).
      exists kb. split; [done|]. split.
      { intros y [<-|Hy]; [eauto|by apply Hall]. }
      destruct Hcases as [[-> ->]|(pre & post & -> & Hb & Hlt & Hpre)]; [by left|].
      right. exists (x :: pre), post. split; [done|]. split; [done|]. split; [done|].
      intros y [<-|Hy]; [eauto|by apply Hpre].
Qed.

Lemma py_max_ordered l b :
  py_max gt key l = Ok b ->
  exists pre post kb,
    l = pre ++ b :: post /\ key b = Ok kb /\
    (forall x, In x pre -> exists k, key x = Ok k /\ lt k kb) /\
    (forall x, In x post -> exists k, key x = Ok k /\ le k kb).
Proof.
  destruct l as [|x l]; [discriminate|]. cbn [py_max]. intros Hmax.
  apply rbind_Ok in Hmax as (kx & Hkx & Hmax).
  destruct (py_max_from_ordered _ _ _ _ Hmax) as (kb & Hkb & Hall & Hcases).
  destruct Hcases as [[-> ->]|(pre & post & -> & Hb & Hlt & Hpre)].
  - exists [], l, kx. split; [done|]. split; [done|]. split; [intros ? []|exact Hall].
  - exists (x :: pre), post, kb. split; [done|]. split; [done|]. split.
    + intros y [<-|Hy]; [eauto|by apply Hpre].
    + intros y Hy. apply Hall. apply in_or_app. right. by right.
Qed.

End PyMaxOrdered.

Lemma Qgtb_true (x y : Q) : Qgtb x y = true -> (y < x)%Q.
Proof.
  unfold Qgtb. intros H. apply negb_true_iff in H. apply Qnot_le_lt.
  intros Hle. apply Qle_bool_iff in Hle. congruence.
Qed.

Lemma Qgtb_false (x y : Q) : Qgtb x y = false -> (x <= y)%Q.
Proof. unfold Qgtb. intros H. apply negb_false_iff in H. by apply Qle_bool_iff. Qed.

Section Selection.

Context `{Externals}.

Implicit Types (h : Heap) (w : World).

Lemma best_child_position h self best :
  best_child h self = Ok best ->
  exists nd pre post s,
    h !! self = Some nd /\
    children nd = pre ++ best :: post /\
    child_score h nd best = Ok s /\
    (forall c, In c pre -> exists sc, child_score h nd c = Ok sc /\ (sc < s)%Q) /\
    (forall c, In c post -> exists sc, child_score h nd c = Ok sc /\ (sc <= s)%Q).
Proof.
  unfold best_child. intros Hbest.
  apply rbind_Ok in Hbest as (nd & Hnd & Hbest). apply deref_Ok in Hnd.
  destruct (py_max_ordered Qgtb (child_score h nd) Qle Qlt Qgtb_true Qgtb_false
              Qle_refl Qle_trans Qlt_le_weak Qle_lt_trans Qlt_le_trans _ _ Hbest)
    as (pre & post & s & Hl & Hs & Hpre & Hpost).
  exists nd, pre, post, s. done.
Qed.

(** X5: [best_child] returns a child of the node, the first in the order of
    [children] whose UCT score is the largest: every earlier child scores
    strictly less and every later child at most as much.  It returns only
    when the score of every child could be computed. *)
Theorem best_child_first_best h self best :
  best_child h self = Ok best ->
  exists nd pre post s,
    h !! self = Some nd /\
    children nd = pre ++ best :: post /\
    child_score h nd best = Ok s /\
    (forall c, In c pre -> exists sc, child_score h nd c = Ok sc /\ (sc < s)%Q) /\
    (forall c, In c post -> exists sc, child_score h nd c = Ok sc /\ (sc <= s)%Q).
Proof. apply best_child_position. Qed.

(** On a node without children [best_child] raises ValueError. *)
Lemma best_child_childless h self nd :
  h !! self = Some nd -> children nd = [] -> best_child h self = Raise ValueError.
Proof.
  intros Hnd Hnil. unfold best_child. rewrite (proj2 (deref_Ok _ _ _) Hnd).
  cbn [rbind]. by rewrite Hnil.
Qed.

Lemma best_child_is_child h self best nd :
  h !! self = Some nd -> best_child h self = Ok best -> In best (children nd).
Proof.
  intros Hnd Hbest.
  destruct (best_child_position h self best Hbest)
    as (nd' & pre & post & s & Hnd' & Hl & _).
  rewrite Hnd in Hnd'. injection Hnd' as <-. rewrite Hl.
  apply in_or_app. right. by left.
Qed.

End Selection.

Section Search.

Context `{Externals}.

Implicit Types (h : Heap) (w : World).

Lemma filter_nil_all {A} (f : A -> bool) (l : list A) :
  List.filter f l = [] -> forall x, In x l -> f x = false.
Proof.
  induction l as [|a l IH]; intros Hf x Hx; [destruct Hx|].
  cbn [List.filter] in Hf. destruct (f a) eqn:Hfa; [discriminate|].
  destruct Hx as [<-|Hx]; [done|]. by apply IH.
Qed.

(** The two ways [_expand] returns. *)
Lemma expand_cases board node w n' w' :
  _expand board node w = Ok (n', w') ->
  exists legal_moves nd,
    _get_legal_moves board = Ok legal_moves /\
    heap w !! node = Some nd /\
    closed_refs (heap w) (children nd) /\
    ((n' = node /\ w' = w /\ every_move_has_child (heap w) nd legal_moves) \/
     (exists mv,
        In mv legal_moves /\
        ~ In (Some mv) (moves_of (heap w) (children nd)) /\
        heap w !! n' = None /\ n' <> node /\
        w' = mkWorld
               (<[node := mkNode (move nd) (parent nd) (children nd ++ [n'])
                                 (visits nd) (wins nd)]>
                  (<[n' := mkNode (Some mv) (Some node) [] 0 0]> (heap w)))
               (ticks w) (S (draws w)))).
Proof.
  unfold _expand. intros Hex.
  bind_inv Hex as legal w1 Hlegal. apply lift_Ok in Hlegal as [-> Hlegal].
  bind_inv Hex as nd w2 Hnd. apply reading_Ok in Hnd as [-> Hnd].
  apply deref_Ok in Hnd.
  bind_inv Hex as taken w3 Htaken. apply reading_Ok in Htaken as [-> Htaken].
  apply child_moves_Ok in Htaken as [-> Hclosed].
  exists legal, nd. split; [done|]. split; [done|]. split; [done|].
  destruct (List.filter _ legal) as [|u us] eqn:Hfilter.
  - left. cbn in Hex. apply mret_Ok in Hex as [-> ->]. split; [done|]. split; [done|].
    intros m Hm. pose proof (filter_nil_all _ _ Hfilter m Hm) as Hpred.
    apply negb_false_iff, bool_decide_eq_true in Hpred. by apply list_elem_of_In.
  - right. cbn [length Nat.ltb Nat.leb] in Hex.
    bind_inv Hex as r w4 Hdraw. injection Hdraw as <- <-.
    bind_inv Hex as new_move w5 Hchoice. apply lift_Ok in Hchoice as [-> Hchoice].
    apply updating_Ok in Hex as (h' & Hadd & ->). cbn [heap ticks draws] in *.
    apply random_choice_Ok_In in Hchoice. rewrite <- Hfilter in Hchoice.
    apply filter_In in Hchoice as [Hin Hfresh].
    apply negb_true_iff, bool_decide_eq_false in Hfresh.
    destruct (add_child_Ok _ _ _ new_move Hnd) as (c & Hadd' & Hc & Hne).
    rewrite Hadd' in Hadd. injection Hadd as <- <-.
    exists new_move. split; [done|]. split.
    { intros Hin'. apply Hfresh. by apply list_elem_of_In. }
    done.
Qed.

(** X6: [_expand] either adds exactly one node, a child of the expanded node
    for a legal move that none of its children carried, with zero visits and
    wins, appended last, at the cost of one random draw; or, when every legal
    move is already carried by a child, it returns the node itself and
    changes nothing. *)
Theorem expand_adds_new_move_or_nothing board node w n' w' :
  _expand board node w = Ok (n', w') ->
  exists legal_moves nd,
    _get_legal_moves board = Ok legal_moves /\
    heap w !! node = Some nd /\
    closed_refs (heap w) (children nd) /\
    ((n' = node /\ w' = w /\ every_move_has_child (heap w) nd legal_moves) \/
     (exists mv,
        In mv legal_moves /\
        ~ In (Some mv) (moves_of (heap w) (children nd)) /\
        heap w !! n' = None /\ n' <> node /\
        w' = mkWorld
               (<[node := mkNode (move nd) (parent nd) (children nd ++ [n'])
                                 (visits nd) (wins nd)]>
                  (<[n' := mkNode (Some mv) (Some node) [] 0 0]> (heap w)))
               (ticks w) (S (draws w)))).
Proof. apply expand_cases. Qed.

(** The loop of [_select] only reads: it follows child links from the node it
    is given and stops at a node that is not fully expanded. *)
Lemma select_loop_descends gas : forall h legal_moves node stop,
  select_loop gas h legal_moves node = Ok stop ->
  descends h node stop /\
  exists nd, h !! stop = Some nd /\ is_fully_expanded nd legal_moves = false.
Proof.
  induction gas as [|gas IH]; intros h legal node stop Hloop;
    cbn [select_loop] in Hloop;
    apply rbind_Ok in Hloop as (nd & Hnd & Hloop); apply deref_Ok in Hnd;
    destruct (is_fully_expanded nd legal) eqn:Hfull; try discriminate;
    try (injection Hloop as <-; split; [constructor|eauto]).
  apply rbind_Ok in Hloop as (c & Hc & Hloop).
  pose proof (best_child_is_child _ _ _ _ Hnd Hc) as Hin.
  destruct (IH _ _ _ _ Hloop) as [Hdesc Hstop].
  split; [|exact Hstop]. by eapply descends_child.
Qed.

(** X7: the descent of [_select] follows child links only, starting at the
    node it is given, and ends at the first node on its way whose number of
    children differs from the number of legal moves. *)
Theorem select_loop_stops_at_open_node gas h legal_moves node stop :
  select_loop gas h legal_moves node = Ok stop ->
  descends h node stop /\
  exists nd, h !! stop = Some nd /\ is_fully_expanded nd legal_moves = false /\
             length (children nd) <> length legal_moves.
Proof.
  intros Hloop. destruct (select_loop_descends _ _ _ _ _ Hloop) as [Hd (nd & Hnd & Hf)].
  split; [exact Hd|]. exists nd. split; [done|]. split; [done|].
  unfold is_fully_expanded in Hf. by apply Nat.eqb_neq.
Qed.

Lemma rollout_world gas : forall simulation_board current_colour w b w',
  rollout gas simulation_board current_colour w = Ok (b, w') ->
  heap w' = heap w /\ ticks w' = ticks w.
Proof.
  induction gas as [|gas IH]; intros sb cc w b w' Hroll; cbn [rollout] in Hroll;
    destruct (negb (has_ended sb cc) && negb (has_ended sb (opposite cc)));
    try discriminate; try (apply mret_Ok in Hroll as [_ ->]; done).
  bind_inv Hroll as legal w1 Hlegal. apply lift_Ok in Hlegal as [-> _].
  bind_inv Hroll as r w2 Hdraw. injection Hdraw as <- <-.
  bind_inv Hroll as mv w3 Hmv. apply lift_Ok in Hmv as [-> _].
  bind_inv Hroll as sb' w4 Hset. apply lift_Ok in Hset as [-> _].
  apply IH in Hroll. exact Hroll.
Qed.

Lemma simulate_result gas colour board node w r w' :
  _simulate gas colour board node w = Ok (r, w') ->
  (r = 0 \/ r = 1) /\ heap w' = heap w /\ ticks w' = ticks w /\
  exists nd mv, heap w !! node = Some nd /\ move nd = Some mv.
Proof.
  unfold _simulate. intros Hsim.
  bind_inv Hsim as nd w1 Hnd. apply reading_Ok in Hnd as [-> Hnd].
  apply deref_Ok in Hnd.
  bind_inv Hsim as mv w2 Hmv. apply lift_Ok in Hmv as [-> Hmv].
  bind_inv Hsim as sb w3 Hset. apply lift_Ok in Hset as [-> _].
  bind_inv Hsim as final w4 Hroll. apply rollout_world in Hroll as [Hheap Hticks].
  apply mret_Ok in Hsim as [-> ->].
  split; [destruct (bool_decide _); lia|]. split; [done|]. split; [done|].
  exists nd, mv. split; [done|]. unfold move_of in Hmv.
  destruct (move nd); [by injection Hmv as ->|discriminate].
Qed.

(** X8: a simulation that returns yields 0 or 1, was started on a node that
    carries a move, and leaves the tree and the clock as they were: it only
    consumes random draws.  On a node without move (a root) it raises
    AttributeError. *)
Theorem simulate_binary_and_pure gas colour board node w :
  (forall r w', _simulate gas colour board node w = Ok (r, w') ->
     (r = 0 \/ r = 1) /\ heap w' = heap w /\ ticks w' = ticks w /\
     exists nd mv, heap w !! node = Some nd /\ move nd = Some mv) /\
  (forall nd, heap w !! node = Some nd -> move nd = None ->
     _simulate gas colour board node w = Raise AttributeError).
Proof.
  split; [intros r w'; apply simulate_result|].
  intros nd Hnd Hmove. unfold _simulate, mbind, reading, lift, reading.
  rewrite (proj2 (deref_Ok _ _ _) Hnd). unfold move_of. by rewrite Hmove.
Qed.

End Search.

(** ** Invariants of the search *)

Section Invariants.

Context `{Externals}.

Implicit Types (h : Heap) (w : World).

Lemma stats_bounded_insert h i nd :
  stats_bounded h -> 0 <= wins nd <= visits nd -> stats_bounded (<[i := nd]> h).
Proof.
  intros Hb Hnd j nj Hj. destruct (decide (i = j)) as [<-|Hne].
  - rewrite lookup_insert_eq in Hj. by injection Hj as <-.
  - rewrite lookup_insert_ne in Hj by done. by eapply Hb.
Qed.

Lemma backpropagate_bounded fuel : forall h node r h',
  r = 0 \/ r = 1 -> stats_bounded h ->
  _backpropagate fuel h node r = Ok h' -> stats_bounded h'.
Proof.
  induction fuel as [|fuel IH]; intros h [n|] r h' Hr Hb Hrun;
    cbn [_backpropagate] in Hrun; try discriminate;
    try (by injection Hrun as <-).
  apply rbind_Ok in Hrun as (nd & Hnd & Hrun). apply deref_Ok in Hnd.
  eapply IH; [| |exact Hrun]; [lia|].
  apply stats_bounded_insert; [exact Hb|]. specialize (Hb n nd Hnd). simpl. lia.
Qed.

Lemma expand_bounded board node w n' w' :
  stats_bounded (heap w) -> _expand board node w = Ok (n', w') ->
  stats_bounded (heap w').
Proof.
  intros Hb Hex.
  destruct (expand_cases _ _ _ _ _ Hex)
    as (legal & nd & _ & Hnd & _ & [(_ & -> & _)|(mv & _ & _ & _ & _ & ->)]);
    [done|].
  cbn [heap]. apply stats_bounded_insert; [|exact (Hb node nd Hnd)].
  apply stats_bounded_insert; [exact Hb|]. simpl. lia.
Qed.

Lemma iteration_bounded gas colour board root w u w' :
  stats_bounded (heap w) -> iteration gas colour board root w = Ok (u, w') ->
  stats_bounded (heap w').
Proof.
  unfold iteration. intros Hb Hit.
  bind_inv Hit as node w1 Hsel. unfold _select in Hsel.
  bind_inv Hsel as legal w0 Hlegal. apply lift_Ok in Hlegal as [-> _].
  bind_inv Hsel as stop w0' Hloop. apply reading_Ok in Hloop as [-> _].
  apply (expand_bounded _ _ _ _ _ Hb) in Hsel.
  bind_inv Hit as result w2 Hsim.
  apply simulate_result in Hsim as (Hr & Hheap & _).
  apply updating_Ok in Hit as (h' & Hback & ->). cbn [heap].
  apply rbind_Ok in Hback as (h'' & Hback & Heq).
  assert (h'' = h') as -> by congruence.
  eapply backpropagate_bounded; [exact Hr| |exact Hback]. by rewrite Hheap.
Qed.

Lemma run_loop_bounded fuel gas colour board turn_length root start_time :
  forall iterations w n w',
  stats_bounded (heap w) ->
  run_loop fuel gas colour board turn_length root start_time iterations w = Ok (n, w') ->
  stats_bounded (heap w').
Proof.
  induction fuel as [|fuel IH]; intros iterations w n w' Hb Hloop;
    cbn [run_loop] in Hloop; bind_inv Hloop as t w1 Hnow; injection Hnow as <- <-;
    destruct (Qltb _ _); try discriminate;
    try (by apply mret_Ok in Hloop as [-> ->]).
  bind_inv Hloop as u w2 Hit. apply iteration_bounded in Hit; [|exact Hb].
  by eapply IH.
Qed.

(** X9: the search keeps the win count of every node between 0 and its visit
    count.  If that holds of the tree the agent retains when [make_move] is
    called, it holds of the tree when [make_move] returns. *)
Theorem make_move_keeps_wins_within_visits
  fuel gas colour turn_length tree turn board opp_move w res w' :
  stats_bounded (heap w) ->
  make_move fuel gas colour turn_length tree turn board opp_move w = Ok (res, w') ->
  stats_bounded (heap w').
Proof.
  unfold make_move. intros Hb Hcall.
  bind_inv Hcall as tree1 w1 Htree1.
  assert (Hb1 : stats_bounded (heap w1)).
  { destruct tree as [t|].
    - by apply mret_Ok in Htree1 as [_ ->].
    - apply updating_Ok in Htree1 as (h' & Halloc & ->). cbn [heap].
      injection Halloc as _ <-. apply stats_bounded_insert; [exact Hb|]. simpl. lia. }
  bind_inv Hcall as tb w2 Hopp. destruct tb as [tree2 board1].
  assert (Hb2 : stats_bounded (heap w2)).
  { destruct opp_move as [om|].
    - bind_inv Hopp as t wa Hupd. bind_inv Hopp as b wb Hwrite.
      apply lift_Ok in Hwrite as [-> _]. apply mret_Ok in Hopp as [_ ->].
      apply updating_Ok in Hupd as (h' & Hupd & ->). cbn [heap].
      unfold update_tree in Hupd.
      apply rbind_Ok in Hupd as (nd & _ & Hupd).
      apply rbind_Ok in Hupd as (found & _ & Hupd).
      destruct found as [child|].
      + by injection Hupd as _ <-.
      + injection Hupd as _ <-. apply stats_bounded_insert; [exact Hb1|]. simpl. lia.
    - by apply mret_Ok in Hopp as [_ ->]. }
  bind_inv Hcall as tree3 w3 Hrun.
  assert (Hb3 : stats_bounded (heap w3)).
  { unfold run in Hrun. bind_inv Hrun as start w4 Hstart. injection Hstart as <- <-.
    bind_inv Hrun as iterations w5 Hloop. apply reading_Ok in Hrun as [-> _].
    by eapply run_loop_bounded; [|exact Hloop]. }
  bind_inv Hcall as nd w4 Hnd. apply reading_Ok in Hnd as [-> _].
  bind_inv Hcall as moves w5 Hmoves. apply reading_Ok in Hmoves as [-> _].
  bind_inv Hcall as mv w6 Hmv. apply lift_Ok in Hmv as [-> _].
  bind_inv Hcall as board2 w7 Hset. apply lift_Ok in Hset as [-> _].
  by apply mret_Ok in Hcall as [_ ->].
Qed.

End Invariants.

(** ** Visit counts *)

Section VisitCounts.

Context `{Externals}.

Implicit Types (h : Heap) (w : World).

Lemma tree_linked_bump h n nd r :
  tree_linked h -> h !! n = Some nd -> tree_linked (<[n := bumped nd r]> h).
Proof.
  intros Hl Hn p np c Hp Hc.
  assert (exists np0, h !! p = Some np0 /\ children np0 = children np)
    as (np0 & Hp0 & Hch).
  { destruct (decide (n = p)) as [<-|Hne].
    - rewrite lookup_insert_eq in Hp. injection Hp as <-. eauto.
    - rewrite lookup_insert_ne in Hp by done. eauto. }
  rewrite <- Hch in Hc. destruct (Hl p np0 c Hp0 Hc) as (cn & Hcn & Hpar).
  destruct (decide (n = c)) as [<-|Hne].
  - rewrite Hn in Hcn. injection Hcn as <-.
    exists (bumped nd r). by rewrite lookup_insert_eq.
  - exists cn. by rewrite lookup_insert_ne.
Qed.

Lemma backpropagate_linked fuel : forall h node r h',
  tree_linked h -> _backpropagate fuel h node r = Ok h' -> tree_linked h'.
Proof.
  induction fuel as [|fuel IH]; intros h [n|] r h' Hl Hrun;
    cbn [_backpropagate] in Hrun; try discriminate;
    try (by injection Hrun as <-).
  apply rbind_Ok in Hrun as (nd & Hnd & Hrun). apply deref_Ok in Hnd.
  eapply IH; [|exact Hrun]. by apply tree_linked_bump.
Qed.

Lemma tree_linked_add_child h node nd c mv :
  tree_linked h -> h !! node = Some nd -> h !! c = None ->
  tree_linked
    (<[node := mkNode (move nd) (parent nd) (children nd ++ [c]) (visits nd) (wins nd)]>
       (<[c := mkNode (Some mv) (Some node) [] 0 0]> h)).
Proof.
  intros Hl Hnode Hc.
  assert (Hne : c <> node) by congruence.
  set (nd' := mkNode (move nd) (parent nd) (children nd ++ [c]) (visits nd) (wins nd)).
  assert (Hold : forall x xn, h !! x = Some xn ->
            exists xn', <[node := nd']> (<[c := mkNode (Some mv) (Some node) [] 0 0]> h)
                          !! x = Some xn' /\ parent xn' = parent xn).
  { intros x xn Hx. destruct (decide (node = x)) as [<-|Hnx].
    - exists nd'. rewrite lookup_insert_eq. rewrite Hnode in Hx. by injection Hx as <-.
    - exists xn. rewrite lookup_insert_ne by done.
      rewrite lookup_insert_ne by congruence. done. }
  intros p np x Hp Hx.
  destruct (decide (node = p)) as [<-|Hnp].
  - rewrite lookup_insert_eq in Hp. injection Hp as <-. cbn [children nd'] in Hx.
    apply in_app_or in Hx as [Hx|[<-|[]]].
    + destruct (Hl node nd x Hnode Hx) as (xn & Hxn & Hpar).
      destruct (Hold x xn Hxn) as (xn' & Hxn' & Hpar'). exists xn'. split; [done|].
      congruence.
    + eexists. rewrite lookup_insert_ne by done. rewrite lookup_insert_eq. done.
  - rewrite lookup_insert_ne in Hp by done.
    destruct (decide (c = p)) as [<-|Hcp].
    + rewrite lookup_insert_eq in Hp. injection Hp as <-. destruct Hx.
    + rewrite lookup_insert_ne in Hp by done.
      destruct (Hl p np x Hp Hx) as (xn & Hxn & Hpar).
      destruct (Hold x xn Hxn) as (xn' & Hxn' & Hpar'). exists xn'. split; [done|].
      congruence.
Qed.

Lemma descends_grows h h' a b :
  heap_grows h h' -> descends h a b -> descends h' a b.
Proof.
  intros Hg. induction 1 as [a|a nd c b Ha Hc Hd IH]; [constructor|].
  destruct (Hg a nd Ha) as (nd' & extra & Ha' & Hch).
  eapply descends_child; [exact Ha'| |exact IH]. rewrite Hch. apply in_or_app. by left.
Qed.

Lemma descends_step_last h a b nd c :
  descends h a b -> h !! b = Some nd -> In c (children nd) -> descends h a c.
Proof.
  induction 1 as [a|a na x b Ha Hx Hd IH]; intros Hb Hc.
  - eapply descends_child; [exact Hb|exact Hc|constructor].
  - eapply descends_child; [exact Ha|exact Hx|]. by apply IH.
Qed.

(** Under agreeing links, the walk up from a descendant passes through every
    node it descends from. *)
Lemma descends_on_chain h a b :
  tree_linked h -> descends h a b -> forall l, parent_chain h b l -> In a l.
Proof.
  intros Hl. induction 1 as [a|a nd c b Ha Hc Hd IH]; intros l Hchain.
  - apply parent_chain_head in Hchain as [l' ->]. by left.
  - specialize (IH l Hchain).
    destruct (parent_chain_suffix h b l c Hchain IH) as (pre & suf & -> & Hsuf).
    destruct (Hl a nd c Ha Hc) as (cn & Hcn & Hpar).
    apply in_or_app. right.
    inversion Hsuf as [n' nd' Hn Hp|n' nd' p l' Hn Hp Hl']; subst;
      rewrite Hcn in Hn; injection Hn as <-; rewrite Hpar in Hp; [discriminate|].
    injection Hp as <-. right.
    apply parent_chain_head in Hl' as Hhead. destruct Hhead as [l'' ->]. by left.
Qed.

(** A backpropagation pass that returns has walked a finite chain. *)
Lemma backpropagate_Ok_chain fuel : forall h n r h',
  _backpropagate fuel h (Some n) r = Ok h' ->
  exists l, parent_chain h n l /\ (length l <= fuel)%nat.
Proof.
  induction fuel as [|fuel IH]; intros h n r h' Hrun;
    cbn [_backpropagate] in Hrun; [discriminate|].
  apply rbind_Ok in Hrun as (nd & Hnd & Hrun). apply deref_Ok in Hnd.
  destruct (parent nd) as [p|] eqn:Hp.
  - destruct (IH _ _ _ _ Hrun) as (l & Hchain & Hlen).
    exists (n :: l). split; [|simpl; lia].
    eapply chain_step; [exact Hnd|exact Hp|].
    apply (parent_chain_ext (<[n := bumped nd r]> h)); [|exact Hchain].
    intros i. destruct (decide (n = i)) as [<-|Hne].
    + by rewrite lookup_insert_eq, Hnd.
    + by rewrite lookup_insert_ne.
  - exists [n]. split; [by eapply chain_root|simpl; lia].
Qed.

(** One iteration raises the visit count of the root by one. *)
Lemma iteration_visits_root gas colour board root w u w' nd :
  tree_linked (heap w) -> heap w !! root = Some nd ->
  iteration gas colour board root w = Ok (u, w') ->
  tree_linked (heap w') /\
  exists nd', heap w' !! root = Some nd' /\ visits nd' = visits nd + 1.
Proof.
  unfold iteration. intros Hl Hroot Hit.
  bind_inv Hit as node w1 Hsel. unfold _select in Hsel.
  bind_inv Hsel as legal w0 Hlegal. apply lift_Ok in Hlegal as [-> _].
  bind_inv Hsel as stop w0' Hloop. apply reading_Ok in Hloop as [-> Hloop].
  apply select_loop_descends in Hloop as [Hdesc _].
  assert (Hsel' : tree_linked (heap w1) /\ descends (heap w1) root node /\
                  exists nd1, heap w1 !! root = Some nd1 /\ visits nd1 = visits nd).
  { destruct (expand_cases _ _ _ _ _ Hsel)
      as (legal' & sn & _ & Hstop & _ &
          [(-> & -> & _)|(mv & _ & _ & Hfresh & Hne & ->)]); [eauto|].
    cbn [heap]. split; [by apply tree_linked_add_child|]. split.
    - eapply descends_step_last.
      + eapply descends_grows; [|exact Hdesc].
        eapply heap_grows_trans; [by apply heap_grows_alloc|].
        eapply heap_grows_update with (nd := sn) (extra := [node]); [|done].
        rewrite lookup_insert_ne; [done|congruence].
      + by rewrite lookup_insert_eq.
      + simpl. apply in_or_app. right. by left.
    - destruct (decide (stop = root)) as [->|Hsr].
      + rewrite Hroot in Hstop. injection Hstop as <-.
        eexists. rewrite lookup_insert_eq. done.
      + exists nd. rewrite lookup_insert_ne by done.
        rewrite lookup_insert_ne; [done|congruence]. }
  destruct Hsel' as (Hl1 & Hdesc1 & nd1 & Hroot1 & Hv1).
  bind_inv Hit as result w2 Hsim. apply simulate_result in Hsim as (_ & Hheap & _).
  apply updating_Ok in Hit as (h' & Hback & ->). cbn [heap].
  apply rbind_Ok in Hback as (h'' & Hback & Heq).
  assert (h'' = h') as -> by congruence. rewrite Hheap in Hback.
  split; [by eapply backpropagate_linked|].
  destruct (backpropagate_Ok_chain _ _ _ _ _ Hback) as (l & Hchain & Hlen).
  destruct (backpropagate_chain l _ _ result gas Hchain Hlen) as (h2 & Hrun & Hon & _).
  rewrite Hrun in Hback. injection Hback as ->.
  pose proof (descends_on_chain _ _ _ Hl1 Hdesc1 l Hchain) as Hin.
  apply list_elem_of_In, list_elem_of_lookup in Hin as [d Hd].
  specialize (Hon d root nd1 Hd Hroot1).
  eexists. split; [exact Hon|]. simpl. lia.
Qed.

Lemma run_loop_visits_root fuel gas colour board turn_length root start_time :
  forall iterations w n w' nd,
  tree_linked (heap w) -> heap w !! root = Some nd ->
  run_loop fuel gas colour board turn_length root start_time iterations w = Ok (n, w') ->
  tree_linked (heap w') /\
  exists nd', heap w' !! root = Some nd' /\
              visits nd' + Z.of_nat iterations = visits nd + Z.of_nat n.
Proof.
  induction fuel as [|fuel IH]; intros iterations w n w' nd Hl Hroot Hloop;
    cbn [run_loop] in Hloop; bind_inv Hloop as t w1 Hnow; injection Hnow as <- <-;
    destruct (Qltb _ _); try discriminate;
    try (apply mret_Ok in Hloop as [-> ->]; split; [done|]; exists nd; split; [done|lia]).
  bind_inv Hloop as u w2 Hit.
  apply (iteration_visits_root _ _ _ _ _ _ _ nd) in Hit as (Hl2 & nd2 & Hroot2 & Hv2);
    [|done|done].
  destruct (IH _ _ _ _ nd2 Hl2 Hroot2 Hloop) as (Hl' & nd' & Hroot' & Hv').
  split; [done|]. exists nd'. split; [done|]. lia.
Qed.

(** X10: the visit count of the root counts the iterations.  On a tree whose
    child links and parent links agree, a search loop that ends after [n]
    iterations has raised the visit count of the root by exactly [n], and the
    links still agree. *)
Theorem root_visits_count_iterations
  fuel gas colour board turn_length root start_time w n w' nd :
  tree_linked (heap w) ->
  heap w !! root = Some nd ->
  run_loop fuel gas colour board turn_length root start_time 0 w = Ok (n, w') ->
  tree_linked (heap w') /\
  exists nd', heap w' !! root = Some nd' /\ visits nd' = visits nd + Z.of_nat n.
Proof.
  intros Hl Hroot Hloop.
  destruct (run_loop_visits_root _ _ _ _ _ _ _ _ _ _ _ nd Hl Hroot Hloop)
    as (Hl' & nd' & Hroot' & Hv).
  split; [done|]. exists nd'. split; [done|]. lia.
Qed.

End VisitCounts.

(** ** The agent, again *)

Lemma mbind_step {A B} (m : M A) (k : A -> M B) w a w1 :
  m w = Ok (a, w1) -> mbind m k w = k a w1.
Proof. unfold mbind. by intros ->. Qed.

Lemma mbind_raise {A B} (m : M A) (k : A -> M B) w e :
  m w = Raise e -> mbind m k w = Raise e.
Proof. unfold mbind. by intros ->. Qed.

Section Agent.

Context `{Externals}.

Implicit Types (h : Heap) (w : World).


(** X12: on its first call (no tree retained yet) with a turn length that is
    not positive, [make_move] raises ValueError instead of returning a move,
    whatever the board: the search makes no iteration and the root has no
    child to choose.  The clock is assumed not to run backwards and the
    write of the opponent's move, if there is one, to succeed. *)
Theorem make_move_first_call_without_budget_raises
  fuel gas colour turn_length turn board opp_move w :
  (forall k, time_time k <= time_time (S k))%Q ->
  (turn_length <= 0)%Q ->
  (forall om, opp_move = Some om ->
     exists b, set_tile_colour board (move_x om) (move_y om) (opposite colour) = Ok b) ->
  make_move fuel gas colour turn_length None turn board opp_move w
  = Raise ValueError.
Proof.
  intros Hmono Hbudget Hwrite. unfold make_move.
  set (root := fresh (dom (heap w))).
  set (h1 := <[root := TreeNode_init None None]> (heap w)).
  erewrite (mbind_step _ _ w root (mkWorld h1 (ticks w) (draws w))); [|reflexivity].
  destruct opp_move as [om|].
  - destruct (Hwrite om eq_refl) as [b Hb].
    set (node := fresh (dom h1)).
    set (h2 := <[node := mkNode (Some om) (Some root) [] 0 0]> h1).
    erewrite (mbind_step _ _ _ (node, b) (mkWorld h2 (ticks w) (draws w))).
    + apply mbind_raise.
      apply (run_nonpositive_budget_raises _ _ _ _ _ node _
               (mkNode (Some om) (Some root) [] 0 0) Hmono Hbudget); [|done].
      apply lookup_insert_eq.
    + erewrite (mbind_step _ _ _ node (mkWorld h2 (ticks w) (draws w))).
      * erewrite (mbind_step _ _ _ b (mkWorld h2 (ticks w) (draws w))); [done|].
        unfold lift, reading. by rewrite Hb.
      * unfold updating, update_tree. cbn [heap].
        unfold deref, h1. rewrite lookup_insert_eq. reflexivity.
  - erewrite (mbind_step _ _ _ (root, board) (mkWorld h1 (ticks w) (draws w)));
      [|reflexivity].
    apply mbind_raise.
    apply (run_nonpositive_budget_raises _ _ _ _ _ root _
             (TreeNode_init None None) Hmono Hbudget); [|done].
    apply lookup_insert_eq.
Qed.


End Agent.

(** ** The learning variant: candidate moves and the board vector *)

Section LearningVariant.

Import AlphaZeroMore.

Implicit Types (board : Board) (colour : Colour).

Lemma empty_choices_app board c1 c2 l1 l2 :
  empty_choices board c1 = Ok l1 -> empty_choices board c2 = Ok l2 ->
  empty_choices board (c1 ++ c2) = Ok (l1 ++ l2).
Proof.
  revert l1. induction c1 as [|[x y] c1 IH]; intros l1 H1 H2.
  - injection H1 as <-. exact H2.
  - cbn [empty_choices app] in *. apply rbind_Ok in H1 as (t & -> & H1).
    apply rbind_Ok in H1 as (more & Hmore & H1). injection H1 as <-.
    cbn [rbind]. rewrite (IH more Hmore H2). cbn [rbind].
    by destruct (is_available t).
Qed.

Lemma py_getitem_lookup {A} (l : list A) (i : nat) a :
  l !! i = Some a -> py_getitem l (Z.of_nat i) = Ok a.
Proof.
  intros Hl. pose proof (lookup_lt_Some _ _ _ Hl) as Hlt. unfold py_getitem.
  destruct (Z.ltb_spec (Z.of_nat i) 0) as [?|_]; [lia|].
  destruct (Z.leb_spec 0 (Z.of_nat i)) as [_|?]; [|lia].
  destruct (Z.ltb_spec (Z.of_nat i) (Z.of_nat (length l))) as [_|?]; [|lia].
  cbn [andb]. by rewrite Nat2Z.id, Hl.
Qed.

(** The choices of one row, taken from column [s] on. *)
Lemma empty_choices_row board (i : nat) row : forall (pre rest : list Tile),
  board_tiles board !! i = Some row -> row = pre ++ rest ->
  (forall j t, row !! j = Some t -> tile_x t = Z.of_nat i /\ tile_y t = Z.of_nat j) ->
  empty_choices board
    (map (fun j => (Z.of_nat i, j)) (map Z.of_nat (seq (length pre) (length rest))))
  = Ok (map move_to (List.filter is_available rest)).
Proof.
  intros pre rest. revert pre. induction rest as [|t rest IH]; intros pre Hrow Heq Hco.
  - reflexivity.
  - cbn [length seq map empty_choices].
    assert (Ht : row !! length pre = Some t).
    { rewrite Heq. by rewrite list_lookup_middle. }
    unfold tile_at. rewrite (py_getitem_lookup _ _ _ Hrow). cbn [rbind].
    rewrite (py_getitem_lookup _ _ _ Ht). cbn [rbind].
    specialize (IH (pre ++ [t]) Hrow).
    rewrite length_app, Nat.add_1_r in IH. rewrite IH.
    + cbn [rbind List.filter]. destruct (Hco _ _ Ht) as [Hx Hy].
      destruct (is_available t); [|done]. cbn [map]. unfold move_to.
      by rewrite Hx, Hy.
    + by rewrite <- app_assoc.
    + exact Hco.
Qed.

Lemma empty_choices_rows board (n : nat) : forall (above below : list (list Tile)),
  board_tiles board = above ++ below ->
  coherent_board board ->
  Forall (fun row => length row = n) below ->
  empty_choices board
    (flat_map (fun i => map (fun j => (i, j)) (map Z.of_nat (seq 0 n)))
              (map Z.of_nat (seq (length above) (length below))))
  = Ok (map move_to (List.filter is_available (concat below))).
Proof.
  intros above below. revert above.
  induction below as [|row below IH]; intros above Heq Hco Hlen; [reflexivity|].
  apply Forall_cons in Hlen as [Hrow Hlen].
  cbn [length seq map flat_map concat].
  assert (Hi : board_tiles board !! length above = Some row).
  { rewrite Heq. by rewrite list_lookup_middle. }
  rewrite List.filter_app, map_app.
  apply empty_choices_app.
  - rewrite <- Hrow. apply (empty_choices_row board (length above) row [] row Hi eq_refl).
    intros j t Hj. by apply (Hco _ _ row).
  - specialize (IH (above ++ [row])).
    rewrite length_app, Nat.add_1_r in IH. apply IH; [|done|done].
    by rewrite <- app_assoc.
Qed.

(** X14: on a well-formed, coherent board [get_all_moves] of mcts.py never
    raises and lists the coordinates of the empty tiles in the order of the
    tiles; it is the list [_get_legal_moves] of MCTSAgent.py returns, except
    that on a board without empty tile it returns the empty list where
    [_get_legal_moves] raises ValueError. *)
Theorem get_all_moves_agrees_with_legal_moves board :
  well_formed_board board ->
  coherent_board board ->
  get_all_moves board
  = Ok (map move_to (List.filter is_available (concat (board_tiles board)))) /\
  (forall l, _get_legal_moves board = Ok l -> get_all_moves board = Ok l) /\
  (_get_legal_moves board = Raise ValueError -> get_all_moves board = Ok []).
Proof.
  intros [Hrows Hcols] Hco.
  assert (Hall : get_all_moves board
            = Ok (map move_to (List.filter is_available (concat (board_tiles board))))).
  { unfold get_all_moves, py_range. rewrite <- Hrows, Nat2Z.id.
    apply (empty_choices_rows board (length (board_tiles board)) []
             (board_tiles board) eq_refl Hco).
    eapply Forall_impl; [exact Hcols|]. intros row Hrow. simpl in Hrow. lia. }
  split; [exact Hall|]. unfold _get_legal_moves in *.
  destruct (List.filter is_available (concat (board_tiles board))) as [|t ts];
    cbn [length Nat.eqb]; split.
  - discriminate.
  - intros _. exact Hall.
  - intros l [= <-]. exact Hall.
  - discriminate.
Qed.

Lemma get_all_moves_agrees_with_legal_moves_witness :
  get_all_moves BoardExample.board
  = Ok (map move_to (List.filter is_available
                       (concat (board_tiles BoardExample.board)))) /\
  (forall l, _get_legal_moves BoardExample.board = Ok l ->
             get_all_moves BoardExample.board = Ok l) /\
  (_get_legal_moves BoardExample.board = Raise ValueError ->
   get_all_moves BoardExample.board = Ok []).
Proof.
  apply (get_all_moves_agrees_with_legal_moves BoardExample.board).
  - split; [reflexivity|]. repeat constructor.
  - exact BoardExample_coherent.
Defined.

Lemma py_map_Forall2 {A B} (f : A -> py B) (l : list A) (l' : list B) :
  AlphaZero.py_map f l = Ok l' -> Forall2 (fun a b => f a = Ok b) l l'.
Proof.
  revert l'. induction l as [|a l IH]; intros l' Hl.
  - injection Hl as <-. constructor.
  - cbn [AlphaZero.py_map] in Hl. apply rbind_Ok in Hl as (b & Hb & Hl).
    apply rbind_Ok in Hl as (bs & Hbs & Hl). injection Hl as <-.
    constructor; [done|by apply IH].
Qed.


Lemma py_map_total {A B} (f : A -> py B) (l : list A) :
  (forall a, In a l -> exists b, f a = Ok b) -> exists l', AlphaZero.py_map f l = Ok l'.
Proof.
  induction l as [|a l IH]; intros Hf; [by eexists|].
  cbn [AlphaZero.py_map]. destruct (Hf a (or_introl eq_refl)) as [b ->].
  destruct IH as [bs ->]; [intros x Hx; apply Hf; by right|]. by eexists.
Qed.

Lemma py_map_raises_at {A B} (f : A -> py B) (pre post : list A) x e :
  (forall a, In a pre -> exists b, f a = Ok b) -> f x = Raise e ->
  AlphaZero.py_map f (pre ++ x :: post) = Raise e.
Proof.
  induction pre as [|a pre IH]; intros Hpre Hx.
  - cbn [app AlphaZero.py_map]. by rewrite Hx.
  - cbn [app AlphaZero.py_map]. destruct (Hpre a (or_introl eq_refl)) as [b ->].
    cbn [rbind]. rewrite IH; [done| |done]. intros y Hy. apply Hpre. by right.
Qed.




Lemma py_getitem_out {A} (l : list A) (i : Z) :
  Z.of_nat (length l) <= i -> py_getitem l i = Raise IndexError.
Proof.
  intros Hi. unfold py_getitem.
  destruct (Z.ltb_spec i 0) as [?|_]; [lia|].
  destruct (Z.ltb_spec i (Z.of_nat (length l))) as [?|_]; [lia|].
  by rewrite andb_false_r.
Qed.

(** X16: the board vector is cut for 11 x 11 boards.  On a well-formed board
    of size at least 11 [get_board_vector] returns (and reads the first 11
    rows and columns only); on a well-formed board of a smaller size it
    raises IndexError. *)
Theorem board_vector_needs_size_11 colour board :
  well_formed_board board ->
  (11 <= board_size board -> exists v, get_board_vector colour board = Ok v) /\
  (board_size board < 11 -> get_board_vector colour board = Raise IndexError).
Proof.
  intros Hwf. split.
  - intros Hsize. unfold get_board_vector. apply py_map_total. intros i Hi.
    apply py_map_total. intros j Hj.
    unfold py_range, _board_size in Hi, Hj.
    apply in_map_iff in Hi as (i' & <- & Hi). apply in_seq in Hi.
    apply in_map_iff in Hj as (j' & <- & Hj). apply in_seq in Hj.
    destruct (tile_at_Ok board (Z.of_nat i') (Z.of_nat j') Hwf) as [t ->];
      [apply is_within_bounds_spec; simpl in *; lia|]. by eexists.
  - intros Hsize. destruct Hwf as [Hrows Hcols].
    assert (Hnn : 0 <= board_size board) by lia.
    set (s := Z.to_nat (board_size board)).
    assert (Hs : (s < 11)%nat) by (unfold s; lia).
    unfold get_board_vector.
    change (py_range _board_size) with (map Z.of_nat (seq 0 11)) at 2.
    change (seq 0 11) with (0%nat :: seq 1 10). cbn [map].
    apply (py_map_raises_at _ [] _ (Z.of_nat 0)); [intros ? []|].
    unfold py_range, _board_size.
    replace (Z.to_nat 11) with (s + S (10 - s))%nat by lia.
    rewrite seq_app, map_app. cbn [seq map].
    apply py_map_raises_at.
    + intros j Hj. apply in_map_iff in Hj as (j' & <- & Hj). apply in_seq in Hj.
      destruct (tile_at_Ok board (Z.of_nat 0) (Z.of_nat j') (conj Hrows Hcols))
        as [t ->]; [apply is_within_bounds_spec; unfold s in Hj; simpl; lia|].
      by eexists.
    + unfold tile_at. cbn [Nat.add].
      destruct (board_tiles board) as [|row rows] eqn:Htiles.
      * reflexivity.
      * change (Z.of_nat 0) with 0. unfold py_getitem at 1. cbn [rbind].
        simpl length. destruct (Z.ltb_spec 0 (Z.of_nat (S (length rows))));
          [|lia]. cbn [lookup list_lookup Z.to_nat andb Z.leb Z.compare rbind].
        simpl. rewrite py_getitem_out; [done|].
        apply Forall_cons in Hcols as [Hrow _]. unfold s. lia.
Qed.

End LearningVariant.

(** ** The visit counts behind the distribution *)

Section VisitDistribution.

Import AlphaZero AlphaZeroCounts.

Implicit Types (h : Heap) (db : list (list Z)).

Lemma sum_Z_from (l : list Z) (a : Z) : fold_left Z.add l a = a + sum_Z l.
Proof.
  revert a. unfold sum_Z. induction l as [|x l IH]; intros a; cbn [fold_left]; [lia|].
  rewrite (IH (a + x)), (IH (0 + x)). lia.
Qed.

Lemma sum_Z_cons (x : Z) (l : list Z) : sum_Z (x :: l) = x + sum_Z l.
Proof. unfold sum_Z at 1. cbn [fold_left]. rewrite sum_Z_from. lia. Qed.

Lemma sum_Z_app (l l' : list Z) : sum_Z (l ++ l') = sum_Z l + sum_Z l'.
Proof.
  induction l as [|x l IH]; [reflexivity|].
  cbn [app]. rewrite !sum_Z_cons, IH. lia.
Qed.

Lemma sum_Z_insert (l : list Z) (k : nat) (a b : Z) :
  l !! k = Some a -> sum_Z (<[k := b]> l) = sum_Z l - a + b.
Proof.
  revert k. induction l as [|x l IH]; intros [|k] Hk; try discriminate.
  - injection Hk as ->. simpl. rewrite !sum_Z_cons. lia.
  - simpl in *. rewrite !sum_Z_cons, (IH k Hk). lia.
Qed.

(** Reading and writing the same index of a list go to the same place. *)
Lemma py_getitem_setitem {A} (l : list A) (i : Z) a :
  py_getitem l i = Ok a ->
  exists k, l !! k = Some a /\ forall b, py_setitem l i b = Ok (<[k := b]> l).
Proof.
  unfold py_getitem, py_setitem.
  destruct (_ && _); [|discriminate].
  destruct (l !! Z.to_nat _) as [x|] eqn:Hl; [|discriminate].
  intros [= <-]. eauto.
Qed.

Lemma add_at_total db x y v db' :
  add_at db x y v = Ok db' ->
  grid_total db' = grid_total db + v /\ same_shape db db'.
Proof.
  unfold add_at. intros Hadd.
  apply rbind_Ok in Hadd as (row & Hrow & Hadd).
  apply rbind_Ok in Hadd as (old & Hold & Hadd).
  apply rbind_Ok in Hadd as (row' & Hrow' & Hadd).
  destruct (py_getitem_setitem _ _ _ Hrow) as (kx & Hkx & Hsetx).
  destruct (py_getitem_setitem _ _ _ Hold) as (ky & Hky & Hsety).
  rewrite Hsety in Hrow'. injection Hrow' as <-.
  rewrite Hsetx in Hadd. injection Hadd as <-. split.
  - unfold grid_total. rewrite list_fmap_insert.
    rewrite (sum_Z_insert _ kx (sum_Z row)).
    + rewrite (sum_Z_insert _ ky old) by done.
      change (sum_Z <$> db) with (map sum_Z db). lia.
    + by rewrite list_lookup_fmap, Hkx.
  - unfold same_shape. apply Forall2_same_length_lookup. split.
    + by rewrite length_insert.
    + intros k r r' Hr Hr'. destruct (decide (k = kx)) as [->|Hne].
      * rewrite list_lookup_insert_eq in Hr' by (by eapply lookup_lt_Some).
        injection Hr' as <-. rewrite Hkx in Hr. injection Hr as <-.
        by rewrite length_insert.
      * rewrite list_lookup_insert_ne in Hr' by done. congruence.
Qed.

Lemma same_shape_refl {A} (g : list (list A)) : same_shape g g.
Proof. unfold same_shape. by apply Forall2_same_length_lookup_2; [|intros; simplify_eq]. Qed.

Lemma same_shape_trans {A B C} (g1 : list (list A)) (g2 : list (list B))
  (g3 : list (list C)) :
  same_shape g1 g2 -> same_shape g2 g3 -> same_shape g1 g3.
Proof.
  unfold same_shape. intros H12 H23.
  eapply Forall2_trans; [|exact H12|exact H23]. simpl. congruence.
Qed.

Lemma total_visits_cons h n nd ns :
  h !! n = Some nd -> total_visits h (n :: ns) = visits nd + total_visits h ns.
Proof. intros Hn. unfold total_visits. cbn [map]. by rewrite sum_Z_cons, Hn. Qed.

Lemma total_visits_app h ns ns' :
  total_visits h (ns ++ ns') = total_visits h ns + total_visits h ns'.
Proof. unfold total_visits. by rewrite map_app, sum_Z_app. Qed.

(** The walk of [_count_visits_DFS]: it adds the visit count of every node
    below [node], children and deeper, once. *)
Lemma count_visits_total gas : forall h node db db',
  _count_visits_DFS gas h node db = Ok db' ->
  exists below,
    descendants gas h node = Ok below /\
    grid_total db' = grid_total db + total_visits h below /\
    same_shape db db' /\
    (forall nd, h !! node = Some nd -> incl (children nd) below).
Proof.
  induction gas as [|gas IH]; intros h node db db' Hrun;
    cbn [_count_visits_DFS] in Hrun; [discriminate|].
  apply rbind_Ok in Hrun as (nd & Hnd & Hrun).
  cbn [descendants]. rewrite Hnd. cbn [rbind]. apply deref_Ok in Hnd.
  assert (Hloop : exists below,
    (fix each_child (cs : list nat) : py (list nat) :=
       match cs with
       | [] => Ok []
       | child :: cs' =>
           let! below := descendants gas h child in
           let! rest := each_child cs' in
           Ok (child :: below ++ rest)
       end) (children nd) = Ok below /\
    grid_total db' = grid_total db + total_visits h below /\
    same_shape db db' /\ incl (children nd) below).
  { revert db Hrun. generalize (children nd) as cs.
    induction cs as [|c cs IHcs]; intros db Hrun.
    - injection Hrun as <-. exists []. split; [done|]. split.
      + unfold total_visits, sum_Z. simpl. lia.
      + split; [apply same_shape_refl|intros ? []].
    - apply rbind_Ok in Hrun as (cn & Hcn & Hrun). apply deref_Ok in Hcn.
      apply rbind_Ok in Hrun as (mv & _ & Hrun).
      apply rbind_Ok in Hrun as (db1 & Hadd & Hrun).
      apply rbind_Ok in Hrun as (db2 & Hrec & Hrun).
      apply add_at_total in Hadd as [Ht1 Hs1].
      destruct (IH _ _ _ _ Hrec) as (below & Hbelow & Ht2 & Hs2 & _).
      destruct (IHcs _ Hrun) as (rest & Hrest & Ht3 & Hs3 & Hincl).
      exists (c :: below ++ rest). rewrite Hbelow. cbn [rbind]. rewrite Hrest.
      split; [done|]. split; [|split].
      + rewrite (total_visits_cons _ _ _ _ Hcn), total_visits_app. lia.
      + eapply same_shape_trans; [exact Hs1|].
        eapply same_shape_trans; [exact Hs2|exact Hs3].
      + intros x [<-|Hx]; [by left|]. right. apply in_or_app. right. by apply Hincl. }
  destruct Hloop as (below & Hbelow & Ht & Hs & Hincl).
  exists below. split; [done|]. split; [done|]. split; [done|].
  intros nd' Hnd'. rewrite Hnd in Hnd'. by injection Hnd' as <-.
Qed.

Lemma py_map_same_length {A B} (f : A -> py B) (l : list A) (l' : list B) :
  py_map f l = Ok l' -> length l = length l'.
Proof. intros Hl. apply py_map_Forall2 in Hl. by eapply Forall2_length. Qed.

(** X17: a distribution that [_get_visit_count_distribution] returns is an
    11 x 11 grid whose entry for a cell is the count of the cell divided by
    one common, non-zero total, and that total is the sum of the visit
    counts of all the nodes below the given node, at every depth. *)
Theorem visit_distribution_normaliser gas h node pd :
  _get_visit_count_distribution gas h node = Ok pd ->
  exists below counted,
    descendants gas h node = Ok below /\
    _count_visits_DFS gas h node (repeat (repeat 0 11%nat) 11%nat) = Ok counted /\
    grid_total counted = total_visits h below /\
    total_visits h below <> 0 /\
    (forall nd, h !! node = Some nd -> incl (children nd) below) /\
    length pd = 11%nat /\ Forall (fun row => length row = 11%nat) pd /\
    Forall2 (Forall2 (fun c q => q = (inject_Z c / inject_Z (total_visits h below))%Q))
            counted pd.
Proof.
  unfold _get_visit_count_distribution. intros Hpd.
  apply rbind_Ok in Hpd as (counted & Hcount & Hpd).
  destruct (count_visits_total _ _ _ _ _ Hcount) as (below & Hbelow & Ht & Hs & Hincl).
  change (sum_Z (map sum_Z counted)) with (grid_total counted) in Hpd.
  assert (Htot : grid_total counted = total_visits h below).
  { rewrite Ht. reflexivity. }
  rewrite Htot in Hpd.
  assert (Hcells : Forall2 (Forall2 (fun c q => py_truediv c (total_visits h below) = Ok q))
                           counted pd).
  { apply py_map_Forall2 in Hpd. eapply Forall2_impl; [exact Hpd|].
    intros row row' Hrow. by apply py_map_Forall2 in Hrow. }
  assert (Hnz : total_visits h below <> 0).
  { intros Hz. rewrite Hz in Hpd.
    destruct counted as [|[|c row] rows].
    - apply Forall2_length in Hs. discriminate Hs.
    - apply Forall2_cons_inv_r in Hs as (r & rs & Hlen & _ & Heq).
      change (repeat (repeat 0 11%nat) 11%nat)
        with (repeat 0 11%nat :: repeat (repeat 0 11%nat) 10%nat) in Heq.
      injection Heq as <- _. discriminate Hlen.
    - discriminate Hpd. }
  exists below, counted. repeat (split; [done|]).
  assert (Hshape : same_shape (repeat (repeat 0 11%nat) 11%nat) pd).
  { eapply same_shape_trans; [exact Hs|]. unfold same_shape.
    eapply Forall2_impl; [exact Hcells|]. intros row row' Hrow.
    by eapply Forall2_length. }
  split; [|split].
  - apply Forall2_length in Hshape. by rewrite <- Hshape.
  - apply Forall_forall. intros row Hrow. apply list_elem_of_lookup in Hrow as [k Hk].
    destruct (Forall2_lookup_r _ _ _ _ _ Hshape Hk) as (r & Hr & Hlen).
    rewrite <- Hlen. apply list_elem_of_lookup_2, list_elem_of_In, repeat_spec in Hr.
    by rewrite Hr.
  - eapply Forall2_impl; [exact Hcells|]. intros row row' Hrow.
    eapply Forall2_impl; [exact Hrow|]. intros c q Hq. unfold py_truediv in Hq.
    destruct (Z.eqb_spec (total_visits h below) 0); [done|]. by injection Hq as <-.
Qed.

(** X18: for a node without children, in particular for the root of a search
    that made no iteration, [_get_visit_count_distribution] raises
    ZeroDivisionError: the total it divides by is 0. *)
Theorem visit_distribution_of_childless_node_raises gas h node nd :
  h !! node = Some nd -> children nd = [] ->
  _get_visit_count_distribution (S gas) h node = Raise ZeroDivisionError.
Proof.
  intros Hnd Hnil. unfold _get_visit_count_distribution.
  cbn [_count_visits_DFS]. rewrite (proj2 (deref_Ok _ _ _) Hnd). cbn [rbind].
  rewrite Hnil. reflexivity.
Qed.

End VisitDistribution.

(** ** The turn number of the budgeter *)

Section TurnNumber.

Lemma py_getitem_wrap {A} (l : list A) (i : Z) :
  - Z.of_nat (length l) <= i < 0 ->
  py_getitem l i = py_getitem l (i + Z.of_nat (length l)).
Proof.
  intros Hi. unfold py_getitem.
  destruct (Z.ltb_spec i 0) as [_|?]; [|lia].
  destruct (Z.ltb_spec (i + Z.of_nat (length l)) 0) as [?|_]; [lia|]. reflexivity.
Qed.

Lemma py_getitem_below {A} (l : list A) (i : Z) :
  i < - Z.of_nat (length l) -> py_getitem l i = Raise IndexError.
Proof.
  intros Hi. unfold py_getitem.
  destruct (Z.ltb_spec i 0) as [_|?]; [|lia].
  destruct (Z.leb_spec 0 (i + Z.of_nat (length l))) as [?|_]; [lia|]. reflexivity.
Qed.

Lemma length_turn_weights n : length (turn_weights n) = n.
Proof. unfold turn_weights. by rewrite length_map, length_seq. Qed.

(** X19: the turn number of [allowed_time] is used as a list index, unchecked.
    For a turn number above [total_turns], or at most [-total_turns], the call
    raises IndexError; for the turn numbers from [1 - total_turns] to 0 it does
    not fail but wraps around: turn 0 is given the time of the last turn.
    (The index does not depend on the arithmetic of the weights.) *)
Theorem allowed_time_turn_number (turn_number : Z) (total_turns : nat) (total_time : Q) :
  (Z.of_nat total_turns < turn_number \/ turn_number <= - Z.of_nat total_turns ->
   allowed_time_exact turn_number total_turns total_time = Raise IndexError) /\
  (1 - Z.of_nat total_turns <= turn_number <= Z.of_nat total_turns ->
   exists t, allowed_time_exact turn_number total_turns total_time = Ok t) /\
  (1 - Z.of_nat total_turns <= turn_number <= 0 ->
   allowed_time_exact turn_number total_turns total_time
   = allowed_time_exact (turn_number + Z.of_nat total_turns) total_turns total_time).
Proof.
  unfold allowed_time_exact. pose proof (length_turn_weights total_turns) as Hlen.
  split; [|split].
  - intros [Habove|Hbelow].
    + rewrite py_getitem_out; [done|]. rewrite Hlen. lia.
    + rewrite py_getitem_below; [done|]. rewrite Hlen. lia.
  - intros Hin. destruct (Z.ltb_spec (turn_number - 1) 0) as [Hneg|Hpos].
    + rewrite py_getitem_wrap by (rewrite Hlen; lia).
      destruct (py_getitem_in_range (turn_weights total_turns)
                  (turn_number - 1 + Z.of_nat (length (turn_weights total_turns))))
        as [a ->]; [rewrite Hlen; lia|]. by eexists.
    + destruct (py_getitem_in_range (turn_weights total_turns) (turn_number - 1))
        as [a ->]; [rewrite Hlen; lia|]. by eexists.
  - intros Hin. rewrite py_getitem_wrap by (rewrite Hlen; lia). rewrite Hlen.
    by replace (turn_number - 1 + Z.of_nat total_turns)
      with (turn_number + Z.of_nat total_turns - 1) by lia.
Qed.

End TurnNumber.

(** ** The properties above on the example inputs *)

Lemma best_child_first_best_witness :
  exists nd pre post s,
    SearchExample.tree !! 0%nat = Some nd /\
    children nd = pre ++ 2%nat :: post /\
    @child_score Hex.externals SearchExample.tree nd 2%nat = Ok s /\
    (forall c, In c pre ->
       exists sc, @child_score Hex.externals SearchExample.tree nd c = Ok sc /\
                  (sc < s)%Q) /\
    (forall c, In c post ->
       exists sc, @child_score Hex.externals SearchExample.tree nd c = Ok sc /\
                  (sc <= s)%Q).
Proof.
  apply (@best_child_first_best Hex.externals SearchExample.tree 0%nat 2%nat).
  vm_compute. reflexivity.
Defined.

Lemma expand_adds_new_move_or_nothing_witness :
  match MoreExamples.first_expansion with
  | Ok (n', w') =>
      exists legal_moves nd,
        _get_legal_moves (empty_board 2) = Ok legal_moves /\
        heap SearchExample.bare_root !! 0%nat = Some nd /\
        closed_refs (heap SearchExample.bare_root) (children nd) /\
        ((n' = 0%nat /\ w' = SearchExample.bare_root /\
          every_move_has_child (heap SearchExample.bare_root) nd legal_moves) \/
         (exists mv,
            In mv legal_moves /\
            ~ In (Some mv) (moves_of (heap SearchExample.bare_root) (children nd)) /\
            heap SearchExample.bare_root !! n' = None /\ n' <> 0%nat /\
            w' = mkWorld
                   (<[0%nat := mkNode (move nd) (parent nd) (children nd ++ [n'])
                                      (visits nd) (wins nd)]>
                      (<[n' := mkNode (Some mv) (Some 0%nat) [] 0 0]>
                         (heap SearchExample.bare_root)))
                   (ticks SearchExample.bare_root)
                   (S (draws SearchExample.bare_root))))
  | _ => False
  end.
Proof.
  destruct MoreExamples.first_expansion as [[n' w']| |] eqn:Hex;
    [|vm_compute in Hex; discriminate Hex..].
  apply (@expand_adds_new_move_or_nothing Hex.externals (empty_board 2) 0%nat
           SearchExample.bare_root n' w' Hex).
Defined.

Lemma select_loop_stops_at_open_node_witness :
  descends SearchExample.tree 0%nat 2%nat /\
  exists nd, SearchExample.tree !! 2%nat = Some nd /\
             is_fully_expanded nd [mkMove 0 0; mkMove 1 0] = false /\
             length (children nd) <> length [mkMove 0 0; mkMove 1 0].
Proof.
  apply (@select_loop_stops_at_open_node Hex.externals 5 SearchExample.tree
           [mkMove 0 0; mkMove 1 0] 0%nat 2%nat).
  vm_compute. reflexivity.
Defined.

Lemma make_move_keeps_wins_within_visits_witness :
  match SearchExample.first_call with
  | Ok (res, w') => stats_bounded (heap w')
  | _ => False
  end.
Proof.
  destruct SearchExample.first_call as [[res w']| |] eqn:Hcall;
    [|vm_compute in Hcall; discriminate Hcall..].
  apply (@make_move_keeps_wins_within_visits Hex.externals 5 20 RED 1%Q None 1
           (empty_board 2) (Some (mkMove 0 0)) SearchExample.nothing res w');
    [|exact Hcall].
  intros i nd Hi. simpl in Hi. rewrite lookup_empty in Hi. discriminate Hi.
Defined.

Lemma bare_root_linked : tree_linked (heap SearchExample.bare_root_started).
Proof.
  intros p nd c Hp Hc. simpl in Hp. destruct (decide (p = 0%nat)) as [->|Hne].
  - rewrite lookup_insert_eq in Hp. injection Hp as <-. destruct Hc.
  - rewrite lookup_insert_ne, lookup_empty in Hp by done. discriminate Hp.
Qed.

Lemma root_visits_count_iterations_witness :
  match SearchExample.one_second_loop with
  | Ok (n, w') =>
      tree_linked (heap w') /\
      exists nd', heap w' !! 0%nat = Some nd' /\
                  visits nd' = visits (TreeNode_init None None) + Z.of_nat n
  | _ => False
  end.
Proof.
  destruct SearchExample.one_second_loop as [[n w']| |] eqn:Hloop;
    [|vm_compute in Hloop; discriminate Hloop..].
  apply (@root_visits_count_iterations Hex.externals 5 20 RED (empty_board 2)
           1%Q 0%nat 0%Q SearchExample.bare_root_started n w'
           (TreeNode_init None None)).
  - exact bare_root_linked.
  - reflexivity.
  - exact Hloop.
Defined.


Lemma make_move_first_call_without_budget_raises_witness :
  MoreExamples.call_without_budget = Raise ValueError.
Proof.
  apply (@make_move_first_call_without_budget_raises Hex.externals 5 20 RED 0%Q 1
           (empty_board 2) None SearchExample.nothing).
  - intros k. unfold Qle. simpl. lia.
  - unfold Qle. simpl. lia.
  - intros om Hom. discriminate Hom.
Defined.



Lemma board_vector_needs_size_11_witness :
  (11 <= board_size BoardExample.board ->
   exists v, AlphaZeroMore.get_board_vector RED BoardExample.board = Ok v) /\
  (board_size BoardExample.board < 11 ->
   AlphaZeroMore.get_board_vector RED BoardExample.board = Raise IndexError).
Proof.
  apply (board_vector_needs_size_11 RED BoardExample.board).
  split; [reflexivity|]. repeat constructor.
Defined.

Lemma visit_distribution_normaliser_witness :
  match MoreExamples.example_distribution with
  | Ok pd =>
      exists below counted,
        AlphaZeroCounts.descendants 3 SearchExample.tree 0%nat = Ok below /\
        AlphaZero._count_visits_DFS 3 SearchExample.tree 0%nat
          (repeat (repeat 0 11%nat) 11%nat) = Ok counted /\
        AlphaZeroCounts.grid_total counted
        = AlphaZeroCounts.total_visits SearchExample.tree below /\
        AlphaZeroCounts.total_visits SearchExample.tree below <> 0 /\
        (forall nd, SearchExample.tree !! 0%nat = Some nd -> incl (children nd) below) /\
        length pd = 11%nat /\ Forall (fun row => length row = 11%nat) pd /\
        Forall2 (Forall2 (fun c q =>
                   q = (inject_Z c
                        / inject_Z (AlphaZeroCounts.total_visits SearchExample.tree
                                      below))%Q))
                counted pd
  | _ => False
  end.
Proof.
  destruct MoreExamples.example_distribution as [pd| |] eqn:Hpd;
    [|vm_compute in Hpd; discriminate Hpd..].
  apply (visit_distribution_normaliser 3 SearchExample.tree 0%nat pd Hpd).
Defined.

Lemma visit_distribution_of_childless_node_raises_witness :
  AlphaZero._get_visit_count_distribution 1 (heap SearchExample.bare_root) 0%nat
  = Raise ZeroDivisionError.
Proof.
  apply (visit_distribution_of_childless_node_raises 0 (heap SearchExample.bare_root)
           0%nat (TreeNode_init None None)); reflexivity.
Defined.

(** The example search tree: its descendants are the two children of the root
    and the grandchild, four visits in all. *)
Example example_descendants :
  AlphaZeroCounts.descendants 3 SearchExample.tree 0%nat = Ok [1%nat; 3%nat; 2%nat] /\
  AlphaZeroCounts.total_visits SearchExample.tree [1%nat; 3%nat; 2%nat] = 4.
Proof. split; reflexivity. Qed.

(** ** More on the rollout policy and on the links *)

Section NoStone.

Implicit Types (board : Board) (colour : Colour).

Lemma get_neighbours_tiles board x y ts :
  get_neighbours board x y = Ok ts ->
  forall t, In t ts -> In t (concat (board_tiles board)).
Proof.
  intros Hts t Ht. destruct (neighbour_offset _ _ _ _ _ Hts Ht) as (o & _ & _ & Hto).
  by eapply tile_at_in_board.
Qed.

Lemma filter_none {A} (f : A -> bool) (l : list A) :
  (forall x, In x l -> f x = false) -> List.filter f l = [].
Proof.
  induction l as [|a l IH]; intros Hf; [done|]. cbn [List.filter].
  rewrite (Hf a (or_introl eq_refl)). apply IH. intros x Hx. apply Hf. by right.
Qed.

Lemma neighbours_without_stone board colour x y ts :
  (forall t, In t (concat (board_tiles board)) -> tile_colour t <> Some colour) ->
  get_neighbours board x y = Ok ts ->
  forall t, In t ts -> has_colour t colour = false.
Proof.
  intros Hnone Hts t Ht. apply bool_decide_eq_false.
  apply Hnone. by eapply get_neighbours_tiles.
Qed.

Lemma bridge_moves_without_stone board colour legal_moves :
  well_formed_board board ->
  (forall t, In t (concat (board_tiles board)) -> tile_colour t <> Some colour) ->
  bridge_moves board colour legal_moves = Ok [].
Proof.
  intros Hwf Hnone. induction legal_moves as [|m rest IH]; [done|].
  cbn [bridge_moves].
  destruct (neighbours_at_Ok board (move_x m) (move_y m) RELATIVE_NEIGHBOURS Hwf)
    as [ts Hts].
  unfold get_neighbours at 1. rewrite Hts. cbn [rbind]. rewrite IH. cbn [rbind].
  rewrite filter_none; [done|]. intros [n1 n2] Hpair.
  apply combinations2_In in Hpair as [Hn1 _].
  by rewrite (neighbours_without_stone _ _ _ _ ts Hnone Hts n1 Hn1).
Qed.

Lemma wheel_moves_without_stone board colour legal_moves :
  well_formed_board board ->
  (forall t, In t (concat (board_tiles board)) -> tile_colour t <> Some colour) ->
  wheel_moves board colour legal_moves = Ok [].
Proof.
  intros Hwf Hnone. induction legal_moves as [|m rest IH]; [done|].
  cbn [wheel_moves]. unfold completes_wheel.
  destruct (neighbours_at_Ok board (move_x m) (move_y m) RELATIVE_NEIGHBOURS Hwf)
    as [ts Hts].
  unfold get_neighbours at 1. rewrite Hts. cbn [rbind]. rewrite IH. cbn [rbind].
  rewrite filter_none; [done|]. intros n Hn.
  by apply (neighbours_without_stone _ _ _ _ ts Hnone Hts).
Qed.

(** X20: as long as the player has no stone on the board, no move is a
    savebridge move: on a well-formed board without tile of the player's
    colour [savebridge] returns the empty list, for every list of legal
    moves, so the default policy draws from all the legal moves. *)
Theorem savebridge_without_stone board colour legal_moves :
  well_formed_board board ->
  (forall t, In t (concat (board_tiles board)) -> tile_colour t <> Some colour) ->
  savebridge board colour legal_moves = Ok [] /\
  (forall r, _default_policy r board colour legal_moves
             = random_choice r legal_moves).
Proof.
  intros Hwf Hnone.
  assert (Hsb : savebridge board colour legal_moves = Ok []).
  { unfold savebridge.
    by rewrite bridge_moves_without_stone, wheel_moves_without_stone. }
  split; [exact Hsb|]. intros r. unfold _default_policy. by rewrite Hsb.
Qed.

Lemma savebridge_without_stone_witness :
  savebridge (empty_board 3) BLUE [mkMove 0 0; mkMove 1 1] = Ok [] /\
  (forall r, _default_policy r (empty_board 3) BLUE [mkMove 0 0; mkMove 1 1]
             = random_choice r [mkMove 0 0; mkMove 1 1]).
Proof.
  apply (savebridge_without_stone (empty_board 3) BLUE [mkMove 0 0; mkMove 1 1]).
  - split; [reflexivity|]. repeat constructor.
  - intros t Ht. vm_compute in Ht.
    repeat (destruct Ht as [<-|Ht]; [discriminate|]). destruct Ht.
Defined.

End NoStone.

Section Links.

Context `{Externals}.

Implicit Types (h : Heap) (w : World).

Lemma tree_linked_alloc h c nd :
  tree_linked h -> h !! c = None -> children nd = [] -> tree_linked (<[c := nd]> h).
Proof.
  intros Hl Hc Hnil p np x Hp Hx. destruct (decide (c = p)) as [<-|Hne].
  - rewrite lookup_insert_eq in Hp. injection Hp as <-. rewrite Hnil in Hx. destruct Hx.
  - rewrite lookup_insert_ne in Hp by done.
    destruct (Hl p np x Hp Hx) as (xn & Hxn & Hpar).
    exists xn. split; [|done]. rewrite lookup_insert_ne; [done|congruence].
Qed.

Lemma iteration_linked gas colour board root w u w' :
  tree_linked (heap w) -> iteration gas colour board root w = Ok (u, w') ->
  tree_linked (heap w').
Proof.
  unfold iteration. intros Hl Hit.
  bind_inv Hit as node w1 Hsel. unfold _select in Hsel.
  bind_inv Hsel as legal w0 Hlegal. apply lift_Ok in Hlegal as [-> _].
  bind_inv Hsel as stop w0' Hloop. apply reading_Ok in Hloop as [-> _].
  assert (Hl1 : tree_linked (heap w1)).
  { destruct (expand_cases _ _ _ _ _ Hsel)
      as (legal' & sn & _ & Hstop & _ &
          [(-> & -> & _)|(mv & _ & _ & Hfresh & Hne & ->)]); [done|].
    cbn [heap]. by apply tree_linked_add_child. }
  bind_inv Hit as result w2 Hsim. apply simulate_result in Hsim as (_ & Hheap & _).
  apply updating_Ok in Hit as (h' & Hback & ->). cbn [heap].
  apply rbind_Ok in Hback as (h'' & Hback & Heq).
  assert (h'' = h') as -> by congruence. rewrite Hheap in Hback.
  by eapply backpropagate_linked.
Qed.

Lemma run_loop_linked fuel gas colour board turn_length root start_time :
  forall iterations w n w',
  tree_linked (heap w) ->
  run_loop fuel gas colour board turn_length root start_time iterations w = Ok (n, w') ->
  tree_linked (heap w').
Proof.
  induction fuel as [|fuel IH]; intros iterations w n w' Hl Hloop;
    cbn [run_loop] in Hloop; bind_inv Hloop as t w1 Hnow; injection Hnow as <- <-;
    destruct (Qltb _ _); try discriminate;
    try (by apply mret_Ok in Hloop as [-> ->]).
  bind_inv Hloop as u w2 Hit. apply iteration_linked in Hit; [|exact Hl].
  by eapply IH.
Qed.

(** X21: the agreement of child links and parent links is an invariant of
    the agent: if every child of every node is live and names that node as
    its parent when [make_move] is called, the same holds when it returns.
    It holds of the empty heap of a new agent. *)
Theorem make_move_keeps_links
  fuel gas colour turn_length tree turn board opp_move w res w' :
  tree_linked (heap w) ->
  make_move fuel gas colour turn_length tree turn board opp_move w = Ok (res, w') ->
  tree_linked (heap w') /\ tree_linked (∅ : Heap).
Proof.
  unfold make_move. intros Hl Hcall. split; [|intros p nd c Hp; by rewrite lookup_empty in Hp].
  bind_inv Hcall as tree1 w1 Htree1.
  assert (Hl1 : tree_linked (heap w1)).
  { destruct tree as [t|].
    - by apply mret_Ok in Htree1 as [_ ->].
    - apply updating_Ok in Htree1 as (h' & Halloc & ->). cbn [heap].
      injection Halloc as _ <-. apply tree_linked_alloc; [exact Hl| |done].
      apply not_elem_of_dom, is_fresh. }
  bind_inv Hcall as tb w2 Hopp. destruct tb as [tree2 board1].
  assert (Hl2 : tree_linked (heap w2)).
  { destruct opp_move as [om|].
    - bind_inv Hopp as t wa Hupd. bind_inv Hopp as b wb Hwrite.
      apply lift_Ok in Hwrite as [-> _]. apply mret_Ok in Hopp as [_ ->].
      apply updating_Ok in Hupd as (h' & Hupd & ->). cbn [heap].
      unfold update_tree in Hupd.
      apply rbind_Ok in Hupd as (nd & _ & Hupd).
      apply rbind_Ok in Hupd as (found & _ & Hupd).
      destruct found as [child|].
      + by injection Hupd as _ <-.
      + injection Hupd as _ <-. apply tree_linked_alloc; [exact Hl1| |done].
        apply not_elem_of_dom, is_fresh.
    - by apply mret_Ok in Hopp as [_ ->]. }
  bind_inv Hcall as tree3 w3 Hrun.
  assert (Hl3 : tree_linked (heap w3)).
  { unfold run in Hrun. bind_inv Hrun as start w4 Hstart. injection Hstart as <- <-.
    bind_inv Hrun as iterations w5 Hloop. apply reading_Ok in Hrun as [-> _].
    by eapply run_loop_linked; [|exact Hloop]. }
  bind_inv Hcall as nd w4 Hnd. apply reading_Ok in Hnd as [-> _].
  bind_inv Hcall as moves w5 Hmoves. apply reading_Ok in Hmoves as [-> _].
  bind_inv Hcall as mv w6 Hmv. apply lift_Ok in Hmv as [-> _].
  bind_inv Hcall as board2 w7 Hset. apply lift_Ok in Hset as [-> _].
  by apply mret_Ok in Hcall as [_ ->].
Qed.

End Links.

Lemma make_move_keeps_links_witness :
  match SearchExample.first_call with
  | Ok (res, w') => tree_linked (heap w') /\ tree_linked (∅ : Heap)
  | _ => False
  end.
Proof.
  destruct SearchExample.first_call as [[res w']| |] eqn:Hcall;
    [|vm_compute in Hcall; discriminate Hcall..].
  apply (@make_move_keeps_links Hex.externals 5 20 RED 1%Q None 1
           (empty_board 2) (Some (mkMove 0 0)) SearchExample.nothing res w');
    [|exact Hcall].
  intros p nd c Hp. simpl in Hp. rewrite lookup_empty in Hp. discriminate Hp.
Defined.

Lemma get_legal_moves_available_witness :
  (_get_legal_moves BoardExample.board = Raise ValueError <->
   forall t, In t (concat (board_tiles BoardExample.board)) -> tile_colour t <> None) /\
  (forall l, _get_legal_moves BoardExample.board = Ok l ->
     l <> [] /\
     l = map move_to (List.filter is_available
                        (concat (board_tiles BoardExample.board))) /\
     forall m, In m l <->
       exists t, In t (concat (board_tiles BoardExample.board)) /\
                 tile_colour t = None /\ m = move_to t).
Proof. apply (get_legal_moves_available BoardExample.board). Defined.

Lemma simulate_binary_and_pure_witness :
  match SimulationExample.simulation with
  | Ok (r, w') =>
      (r = 0 \/ r = 1) /\ heap w' = heap SimulationExample.world /\
      ticks w' = ticks SimulationExample.world /\
      exists nd mv, heap SimulationExample.world !! 1%nat = Some nd /\
                    move nd = Some mv
  | _ => False
  end /\
  @_simulate Hex.externals 20 RED (empty_board 2) 0%nat SimulationExample.world
  = Raise AttributeError.
Proof.
  destruct (@simulate_binary_and_pure Hex.externals 20 RED (empty_board 2) 1%nat
              SimulationExample.world) as [Hret _].
  destruct (@simulate_binary_and_pure Hex.externals 20 RED (empty_board 2) 0%nat
              SimulationExample.world) as [_ Hraise].
  split.
  - destruct SimulationExample.simulation as [[r w']| |] eqn:Hsim;
      [|vm_compute in Hsim; discriminate Hsim..].
    exact (Hret r w' Hsim).
  - apply (Hraise Examples.stale_root); reflexivity.
Defined.

Lemma allowed_time_turn_number_witness :
  allowed_time_exact 122 121 300 = Raise IndexError /\
  (exists t, allowed_time_exact 121 121 300 = Ok t) /\
  allowed_time_exact 0 121 300 = allowed_time_exact (0 + Z.of_nat 121) 121 300.
Proof.
  destruct (allowed_time_turn_number 122 121 300) as [Hout _].
  destruct (allowed_time_turn_number 121 121 300) as (_ & Hin & _).
  destruct (allowed_time_turn_number 0 121 300) as (_ & _ & Hwrap).
  split; [apply Hout; lia|]. split; [apply Hin; lia|]. apply Hwrap. lia.
Defined.
